(** * StarTrack F1: the circuit geometry engine

    A shallow embedding of the geometry code of the circuit editor
    (GeometryEngine.js, the segment builder of App.jsx and the spline
    generators of the CircuitEditor components) and the properties its
    specification states about it.

    JavaScript numbers are modelled as real numbers: every arithmetic
    operation is the exact one, [Math.sqrt], [Math.sin], [Math.cos] are
    the real functions, and [Math.atan2] is defined below from [atan].
    A decimal literal that is not a double is written as the double
    it denotes where a bound turns on it ([double_0_8]).
    Array indices and loop counters are natural numbers.  Objects are
    records; a property that an object may lack is an [option]. *)

From Stdlib Require Import Reals Lra Lia List String Bool Arith ZArith.
From Stdlib Require Import DecimalString.
From Stdlib Require Import Sorted Permutation.
Import ListNotations.

Open Scope R_scope.

(** JavaScript numbers. *)
Abbreviation real := Rdefinitions.R.

(** ** The parts of [Math] the engine uses *)

Module Math.

Definition PI : R := Rtrigo1.PI.

Definition abs (a : R) : R := Rabs a.
Definition min (a b : R) : R := Rmin a b.
Definition max (a b : R) : R := Rmax a b.
Definition sqrt (a : R) : R := R_sqrt.sqrt a.
Definition sin (a : R) : R := Rtrigo_def.sin a.
Definition cos (a : R) : R := Rtrigo_def.cos a.

(** [Math.hypot(a, b)] *)
Definition hypot (a b : R) : R := R_sqrt.sqrt (a * a + b * b).

(** [Math.floor] *)
Definition floor (a : R) : Z := Int_part a.

(** [Math.atan2(b, a)]: the angle of the vector [(a, b)], in
    [(-PI, PI]], with [atan2(0, 0) = 0]. *)
Definition atan2 (b a : R) : R :=
  if Rlt_dec 0 a then atan (b / a)
  else if Rlt_dec a 0 then
    if Rle_dec 0 b then atan (b / a) + Rtrigo1.PI
    else atan (b / a) - Rtrigo1.PI
  else if Rlt_dec 0 b then Rtrigo1.PI / 2
  else if Rlt_dec b 0 then - (Rtrigo1.PI / 2)
  else 0.

End Math.

(** Template literals splice an index as its decimal digits. *)
Definition showNat (n : nat) : string :=
  NilZero.string_of_uint (Nat.to_uint n).

(** ** Data *)

(** A planar control point [{x, y}], with the segment intent [type]
    the drawing tool may attach. *)
Record Point := mkPoint { x : R; y : R; type : option string }.

(** A geodetic control point [{lat, lng}]. *)
Record LatLng := mkLatLng { lat : R; lng : R }.

(** The plain object [{x: a, y: b}]. *)
Definition xy (a b : R) : Point := mkPoint a b None.

(** [points[i]]; every use below is under a loop guard that keeps [i]
    inside the array. *)
Definition at_ (points : list Point) (i : nat) : Point :=
  nth i points (xy 0 0).

Module Issue.
Record t := mk { type : string; message : string; index : option nat }.
End Issue.

Record Stats := mkStats
  { totalLength : R; sharpestTurn : R; longestStraight : R }.

Record Report := mkReport
  { isValid : bool; issues : list Issue.t; stats : Stats }.

(** ** GeometryEngine.js *)

Module GeometryEngine.

(** Earth radius in meters *)
Definition R : real := 6371000.

Definition getDistanceMeters (lat1 lon1 lat2 lon2 : real) : real :=
  let dLat := (lat2 - lat1) * Math.PI / 180 in
  let dLon := (lon2 - lon1) * Math.PI / 180 in
  let a :=
    Math.sin (dLat / 2) * Math.sin (dLat / 2) +
    Math.cos (lat1 * Math.PI / 180) * Math.cos (lat2 * Math.PI / 180) *
    Math.sin (dLon / 2) * Math.sin (dLon / 2) in
  let c := 2 * Math.atan2 (Math.sqrt a) (Math.sqrt (1 - a)) in
  R * c.

Definition latLonToMeters (lat lon originLat originLon : real) : Point :=
  let x := getDistanceMeters originLat originLon originLat lon in
  let y := getDistanceMeters originLat originLon lat originLon in
  xy (if Rgt_dec lon originLon then x else - x)
     (if Rgt_dec lat originLat then y else - y).

(** The body of the [for] loop of [calculateCircuitLength]. *)
Definition lengthStep (points : list Point) (length : real) (i : nat)
  : real :=
  length + Math.hypot (x (at_ points i) - x (at_ points (i - 1)))
                      (y (at_ points i) - y (at_ points (i - 1))).

(** [for (let i = 1; i < points.length; i++)] *)
Definition indices (points : list Point) : list nat :=
  seq 1 (List.length points - 1).

Definition calculateCircuitLength (points : list Point) : real :=
  fold_left (lengthStep points) (indices points) 0.

(** The mutable locals of [validateGeometry]. *)
Record VState := mkVState
  { v_issues : list Issue.t;
    v_totalLength : real;
    v_longestStraight : real;
    v_currentStraight : real }.

(** [diff] at loop index [i], for [i > 1]. *)
Definition turnDiff (points : list Point) (i : nat) : real :=
  let p1 := at_ points (i - 2) in
  let p2 := at_ points (i - 1) in
  let p3 := at_ points i in
  let angle1 := Math.atan2 (y p2 - y p1) (x p2 - x p1) in
  let angle2 := Math.atan2 (y p3 - y p2) (x p3 - x p2) in
  let diff := Math.abs (angle1 - angle2) * 180 / Math.PI in
  if Rgt_dec diff 180 then 360 - diff else diff.

Definition sharpTurn (i : nat) : Issue.t :=
  Issue.mk "critical" ("Impossible sharp turn at point " ++ showNat i) (Some i).

Definition tightHairpin (i : nat) : Issue.t :=
  Issue.mk "warning" ("Very tight hairpin at point " ++ showNat i) (Some i).

Definition tooShort : Issue.t :=
  Issue.mk "warning" "Track too short for F1 standards (<3km)" None.

Definition tooLong : Issue.t :=
  Issue.mk "warning" "Track too long for F1 standards (>8km)" None.

(** What the turn check pushes at loop index [i]. *)
Definition turnIssues (diff : real) (i : nat) : list Issue.t :=
  if Rgt_dec diff 160 then [sharpTurn i]
  else if Rgt_dec diff 120 then [tightHairpin i]
  else [].

(** The body of the [for] loop of [validateGeometry]. *)
Definition validateStep (points : list Point) (s : VState) (i : nat) : VState :=
  let dist := Math.hypot (x (at_ points i) - x (at_ points (i - 1)))
                         (y (at_ points i) - y (at_ points (i - 1))) in
  let total := v_totalLength s + dist in
  if (1 <? i)%nat then
    let diff := turnDiff points i in
    let issues := v_issues s ++ turnIssues diff i in
    if Rlt_dec diff 2 then
      mkVState issues total (v_longestStraight s) (v_currentStraight s + dist)
    else
      mkVState issues total
               (Math.max (v_longestStraight s) (v_currentStraight s)) 0
  else
    mkVState (v_issues s) total (v_longestStraight s) (v_currentStraight s + dist).

Definition validateLoop (points : list Point) : VState :=
  fold_left (validateStep points) (indices points) (mkVState [] 0 0 0).

(** The two length checks after the loop. *)
Definition lengthIssues (total : real) : list Issue.t :=
  (if Rlt_dec total 3000 then [tooShort] else []) ++
  (if Rgt_dec total 8000 then [tooLong] else []).

Definition validateGeometry (points : list Point) (closed : bool) : Report :=
  let s := validateLoop points in
  let issues := v_issues s ++ lengthIssues (v_totalLength s) in
  mkReport (Nat.eqb (List.length issues) 0) issues
           (mkStats (v_totalLength s) 180 (v_longestStraight s)).

(** [Math.random()] is an input: the draw [rnd], in [[0, 1)]. *)
Definition calculateAccuracyScore (rnd : real)
           (drawnPoints referencePoints : list Point) : real :=
  85 + rnd * 10.

End GeometryEngine.

(** ** App.jsx: closure check and segment builder *)

(** A control-point sequence is all geodetic or all planar; the code
    tells which by testing [points[0].lat !== undefined]. *)
Inductive Circuit :=
| Geodetic (points : list LatLng)
| Planar (points : list Point).

Module Segment.
Record t := mk { id : string; type : string; length : real; radius : real }.
End Segment.

(** Computations that record the divisor of every division they execute. *)
Module Traced.

Definition t (A : Type) : Type := (A * list real)%type.

Definition ret {A} (a : A) : t A := (a, []).

Definition bind {A B} (m : t A) (f : A -> t B) : t B :=
  let (a, l) := m in let (b, l') := f a in (b, l ++ l').

Definition div (a d : real) : t real := (a / d, [d]).

Definition value {A} (m : t A) : A := fst m.
Definition divisions {A} (m : t A) : list real := snd m.

End Traced.

Notation "x <- m ;; k" := (Traced.bind m (fun x => k))
  (at level 61, m at next level, right associativity).

Module App.

Definition checkCircuitComplete (points : Circuit) : bool :=
  match points with
  | Geodetic pts =>
      if (List.length pts <? 3)%nat then false
      else
        let first := nth 0 pts (mkLatLng 0 0) in
        let last := nth (List.length pts - 1) pts (mkLatLng 0 0) in
        let dist := GeometryEngine.getDistanceMeters
                      (lat first) (lng first) (lat last) (lng last) in
        if Rlt_dec dist 40 then true else false
  | Planar pts =>
      if (List.length pts <? 3)%nat then false
      else
        let first := at_ pts 0 in
        let last := at_ pts (List.length pts - 1) in
        let dist := Math.hypot (x first - x last) (y first - y last) in
        if Rlt_dec dist 30 then true else false
  end.

(** The determinant [D] of [calculateRadius]. *)
Definition det (p1 p2 p3 : Point) : real :=
  2 * (x p1 * (y p2 - y p3) + x p2 * (y p3 - y p1) + x p3 * (y p1 - y p2)).

Definition calculateRadius (p1 p2 p3 : Point) : Traced.t real :=
  let x1 := x p1 in let y1 := y p1 in
  let x2 := x p2 in let y2 := y p2 in
  let x3 := x p3 in let y3 := y p3 in
  let D := det p1 p2 p3 in
  if Rlt_dec (Math.abs D) 1e-5 then Traced.ret 0
  else
    Ux <- Traced.div ((x1 ^ 2 + y1 ^ 2) * (y2 - y3) + (x2 ^ 2 + y2 ^ 2) * (y3 - y1)
                      + (x3 ^ 2 + y3 ^ 2) * (y1 - y2)) D ;;
    Uy <- Traced.div ((x1 ^ 2 + y1 ^ 2) * (x3 - x2) + (x2 ^ 2 + y2 ^ 2) * (x1 - x3)
                      + (x3 ^ 2 + y3 ^ 2) * (x2 - x1)) D ;;
    let R := Math.hypot (x1 - Ux) (y1 - Uy) in
    Traced.ret (Math.min R 1000).

(** [meterPoints]: the projection of a geodetic circuit on its first
    point, or the planar points as they are. *)
Definition meterPoints (circuitPoints : Circuit) : list Point :=
  match circuitPoints with
  | Geodetic pts =>
      let origin := nth 0 pts (mkLatLng 0 0) in
      map (fun p => GeometryEngine.latLonToMeters
                      (lat p) (lng p) (lat origin) (lng origin)) pts
  | Planar pts => pts
  end.

(** The three points the radius at loop index [i] is taken from;
    [i - 2] is cut off at 0, as [Math.max(0, i-2)] does. *)
Definition radiusPoints (meterPoints : list Point) (i : nat)
  : Point * Point * Point :=
  (at_ meterPoints (Nat.max 0 (i - 2)), at_ meterPoints (i - 1), at_ meterPoints i).

(** The segment pushed at loop index [i]. *)
Definition segmentAt (meterPoints : list Point) (i : nat) : Segment.t :=
  let pPrev := at_ meterPoints (i - 1) in
  let pCurr := at_ meterPoints i in
  let dist := Math.hypot (x pCurr - x pPrev) (y pCurr - y pPrev) in
  let radius := Traced.value
    (calculateRadius (at_ meterPoints (Nat.max 0 (i - 2))) pPrev pCurr) in
  let isCorner :=
    (if Rgt_dec radius 0 then true else false) &&
    (if Rlt_dec radius 500 then true else false) in
  Segment.mk ("seg-" ++ showNat i)
             (if isCorner then "corner" else "straight")
             dist
             (if isCorner then radius else 0).

Definition circuitLength (circuitPoints : Circuit) : nat :=
  match circuitPoints with
  | Geodetic pts => List.length pts
  | Planar pts => List.length pts
  end.

Definition buildSegments (circuitPoints : Circuit) : list Segment.t :=
  if (circuitLength circuitPoints <? 2)%nat then []
  else
    let meterPoints := meterPoints circuitPoints in
    map (segmentAt meterPoints) (GeometryEngine.indices meterPoints).

End App.

(** ** CircuitEditor.jsx: closure check of the canvas editors *)

Module CircuitEditor.

(** [isLoopClosed], with the snap distance of the variant: 30 in one
    canvas editor, 20 in the other. *)
Definition isLoopClosedWithin (tolerance : real) (pts : list Point) : bool :=
  if (List.length pts <? 3)%nat then false
  else
    let first := at_ pts 0 in
    let last := at_ pts (List.length pts - 1) in
    let dist := Math.hypot (x first - x last) (y first - y last) in
    if Rlt_dec dist tolerance then true else false.

Definition isLoopClosed : list Point -> bool := isLoopClosedWithin 30.

Definition isLoopClosedSnap : list Point -> bool := isLoopClosedWithin 20.

End CircuitEditor.

(** ** CircuitEditor.jsx: the spline generators *)

(** The objects the sampling loops push: [{x, y, dx, dy, angle}], and
    [speed] once it is assigned. *)
Record Sample := mkSample
  { s_x : real; s_y : real; s_dx : real; s_dy : real; s_angle : real;
    s_speed : option real }.

(** The elements of the returned array: a sample, or a control point
    copied with [speed] (and [angle]) added. *)
Record SplinePoint := mkSplinePoint
  { point : Point;
    dx : option real; dy : option real; angle : option real;
    speed : option real }.

Definition ofSample (s : Sample) : SplinePoint :=
  mkSplinePoint (xy (s_x s) (s_y s)) (Some (s_dx s)) (Some (s_dy s))
                (Some (s_angle s)) (s_speed s).

(** [{...p, speed: v}] *)
Definition withSpeed (p : Point) (v : real) : SplinePoint :=
  mkSplinePoint p None None None (Some v).

Definition setSpeed (s : Sample) (v : real) : Sample :=
  mkSample (s_x s) (s_y s) (s_dx s) (s_dy s) (s_angle s) (Some v).

Definition sampleAt (l : list Sample) (i : nat) : Sample :=
  nth i l (mkSample 0 0 0 0 0 None).

(** [v || 0] on a number that may be missing. *)
Definition orZero (v : option real) : real :=
  match v with
  | Some s => if Req_dec_T s 0 then 0 else s
  | None => 0
  end.

(** The literal [0.8] is not a double: it stands for the nearest one,
    3602879701896397 / 2^52 = 0.8000000000000000444..., and
    [1.0 - 0.8] is then computed without rounding: it is
    900719925474099 / 2^52 = 0.19999999999999996, below 0.2. *)
Definition double_0_8 : real := 3602879701896397 / 4503599627370496.

Module Spline.

(** One Catmull-Rom sample of the span [p1 .. p2] at step [t] of
    [segments]. *)
Definition catmullRom (p0 p1 p2 p3 : Point) (segments t : nat) : Sample :=
  let st := INR t / INR segments in
  let tt := st * st in
  let ttt := tt * st in
  let q0 := - ttt + 2 * tt - st in
  let q1 := 3 * ttt - 5 * tt + 2 in
  let q2 := -3 * ttt + 4 * tt + st in
  let q3 := ttt - st in
  let sx := 0.5 * (x p0 * q0 + x p1 * q1 + x p2 * q2 + x p3 * q3) in
  let sy := 0.5 * (y p0 * q0 + y p1 * q1 + y p2 * q2 + y p3 * q3) in
  let dq0 := -3 * tt + 4 * st - 1 in
  let dq1 := 9 * tt - 10 * st in
  let dq2 := -9 * tt + 8 * st + 1 in
  let dq3 := 3 * tt - 1 in
  let dx := 0.5 * (x p0 * dq0 + x p1 * dq1 + x p2 * dq2 + x p3 * dq3) in
  let dy := 0.5 * (y p0 * dq0 + y p1 * dq1 + y p2 * dq2 + y p3 * dq3) in
  mkSample sx sy dx dy (Math.atan2 dy dx) None.

(** [curvature] of the speed pass at index [i]. *)
Definition curvature (splinePoints : list Sample) (i : nat) : real :=
  if (0 <? i)%nat && (i <? List.length splinePoints - 1)%nat then
    let prev := sampleAt splinePoints (i - 1) in
    let p := sampleAt splinePoints i in
    let angle1 := Math.atan2 (s_dy prev) (s_dx prev) in
    let angle2 := Math.atan2 (s_dy p) (s_dx p) in
    let diff := Math.abs (angle1 - angle2) in
    let diff := if Rgt_dec diff Math.PI then 2 * Math.PI - diff else diff in
    diff * 10
  else 0.

Definition speedOf (splinePoints : list Sample) (i : nat) : real :=
  1.0 - Math.min (curvature splinePoints i) double_0_8.

(** [splinePoints[splinePoints.length-1]?.speed] *)
Definition lastSpeed (splinePoints : list Sample) : option real :=
  match splinePoints with
  | [] => None
  | _ => s_speed (sampleAt splinePoints (List.length splinePoints - 1))
  end.

End Spline.

(** The generator of the map editor and of the canvas editor: every
    span is a Catmull-Rom span. *)
Module SplineEditor.

(** [pts]: the control points with their phantom neighbours. *)
Definition padded (points : list Point) (closed : bool) : list Point :=
  let n := List.length points in
  if closed then
    [at_ points (n - 2); at_ points (n - 1)] ++ points ++ [at_ points 0; at_ points 1]
  else
    [at_ points 0] ++ points ++ [at_ points (n - 1)].

(** The samples of the span starting at [pts[i]]. *)
Definition span (pts : list Point) (segments i : nat) : list Sample :=
  map (Spline.catmullRom (at_ pts (i - 1)) (at_ pts i) (at_ pts (i + 1))
                         (at_ pts (i + 2)) segments)
      (seq 0 segments).

(** [for (let i = 1; i < pts.length - 2; i++)] *)
Definition sampled (pts : list Point) (segments : nat) : list Sample :=
  flat_map (span pts segments) (seq 1 (List.length pts - 3)).

(** The speed pass.  It writes [speed] only and reads [dx], [dy]
    only, so it is a map over the indices. *)
Definition withSpeeds (splinePoints : list Sample) : list Sample :=
  map (fun i => setSpeed (sampleAt splinePoints i) (Spline.speedOf splinePoints i))
      (seq 0 (List.length splinePoints)).

Definition getSplinePoints (points : list Point) (segments : nat) (closed : bool)
  : list SplinePoint :=
  if (List.length points <? 2)%nat then map (fun p => withSpeed p 1.0) points
  else
    let splinePoints := withSpeeds (sampled (padded points closed) segments) in
    if negb closed then
      let last := at_ points (List.length points - 1) in
      map ofSample splinePoints ++
      [mkSplinePoint last None None (Some 0)
                     (Some (orZero (Spline.lastSpeed splinePoints)))]
    else map ofSample splinePoints.

End SplineEditor.

(** The generator of the realistic editor: a span whose first point is
    tagged ['straight'] is interpolated linearly. *)
Module MixedEditor.

(** One sample of a straight span, at step [t] of [steps]. *)
Definition linear (p1 p2 : Point) (steps : Z) (t : nat) : Sample :=
  let ratio := INR t / IZR steps in
  let sx := x p1 + (x p2 - x p1) * ratio in
  let sy := y p1 + (y p2 - y p1) * ratio in
  let dx := x p2 - x p1 in
  let dy := y p2 - y p1 in
  mkSample sx sy dx dy (Math.atan2 dy dx) (Some 1.0).

Definition isStraight (p : Point) : bool :=
  match type p with
  | Some s => String.eqb s "straight"
  | None => false
  end.

(** The samples of the span starting at [loopPoints[i]]. *)
Definition span (loopPoints : list Point) (segments : nat) (closed : bool) (i : nat)
  : list Sample :=
  let n := List.length loopPoints in
  let p1 := at_ loopPoints i in
  let p2 := at_ loopPoints (i + 1) in
  if isStraight p1 then
    let dist := Math.hypot (x p2 - x p1) (y p2 - y p1) in
    let steps := Z.max 5 (Math.floor (dist / 10)) in
    flat_map (fun t => if (0 <? t)%nat || (i =? 0)%nat
                       then [linear p1 p2 steps t] else [])
             (seq 0 (Z.to_nat steps + 1))
  else
    let p0 := if (0 <? i)%nat then at_ loopPoints (i - 1)
              else if closed then at_ loopPoints (n - 2) else p1 in
    let p3 := if (i <? n - 2)%nat then at_ loopPoints (i + 2)
              else if closed then at_ loopPoints 1 else p2 in
    map (Spline.catmullRom p0 p1 p2 p3 segments) (seq 0 segments).

(** The speed pass: samples that already carry speed 1.0 are kept. *)
Definition speedAt (splinePoints : list Sample) (i : nat) : Sample :=
  let p := sampleAt splinePoints i in
  match s_speed p with
  | Some v => if Req_dec_T v 1.0 then p
              else setSpeed p (Spline.speedOf splinePoints i)
  | None => setSpeed p (Spline.speedOf splinePoints i)
  end.

Definition withSpeeds (splinePoints : list Sample) : list Sample :=
  map (speedAt splinePoints) (seq 0 (List.length splinePoints)).

Definition getSplinePoints (points : list Point) (segments : nat) (closed : bool)
  : list SplinePoint :=
  if (List.length points <? 2)%nat then map (fun p => withSpeed p 1.0) points
  else
    let loopPoints := if closed then points ++ [at_ points 0] else points in
    let splinePoints :=
      flat_map (span loopPoints segments closed)
               (seq 0 (List.length loopPoints - 1)) in
    map ofSample (withSpeeds splinePoints).

End MixedEditor.

(** ** Notions the specification uses *)

(** The total length in the specification's words: the sum of the
    distances between consecutive points. *)
Fixpoint pathLength (points : list Point) : real :=
  match points with
  | p :: (q :: _) as rest =>
      Math.hypot (x q - x p) (y q - y p) + pathLength rest
  | _ => 0
  end.

(** Rotation by [theta] about the centre [c], then translation by
    [(tx, ty)]. *)
Definition rotateAbout (theta : real) (c p : Point) : Point :=
  mkPoint (x c + (cos theta * (x p - x c) - sin theta * (y p - y c)))
          (y c + (sin theta * (x p - x c) + cos theta * (y p - y c)))
          (type p).

Definition translate (tx ty : real) (p : Point) : Point :=
  mkPoint (x p + tx) (y p + ty) (type p).

Definition rigidMotion (theta : real) (c : Point) (tx ty : real) (p : Point) : Point :=
  translate tx ty (rotateAbout theta c p).

(** The issues the turn check of [validateGeometry] pushes at loop
    index [i]. *)
Definition issuesAt (points : list Point) (i : nat) : list Issue.t :=
  if (1 <? i)%nat
  then GeometryEngine.turnIssues (GeometryEngine.turnDiff points i) i
  else [].

(** A returned spline point carries a speed factor in [[0.2, 1.0]]. *)
Definition speedInRange (p : SplinePoint) : Prop :=
  exists v, speed p = Some v /\ 0.2 <= v <= 1.0.

(** The least speed the speed pass assigns: [1.0 - 0.8] in doubles. *)
Definition minSpeed : real := 1 - double_0_8.

(** A returned spline point carries a speed factor in
    [[1.0 - 0.8, 1.0]], the range of the speed pass. *)
Definition speedInCodeRange (p : SplinePoint) : Prop :=
  exists v, speed p = Some v /\ minSpeed <= v <= 1.0.


(** A sample whose speed is assigned and in range. *)
Definition sampleInRange (s : Sample) : Prop :=
  exists v, s_speed s = Some v /\ minSpeed <= v <= 1.0.


(** The haversine term [a] of [getDistanceMeters]. *)
Definition haversine (lat1 lon1 lat2 lon2 : real) : real :=
  let dLat := (lat2 - lat1) * Math.PI / 180 in
  let dLon := (lon2 - lon1) * Math.PI / 180 in
  Math.sin (dLat / 2) * Math.sin (dLat / 2) +
  Math.cos (lat1 * Math.PI / 180) * Math.cos (lat2 * Math.PI / 180) *
  Math.sin (dLon / 2) * Math.sin (dLon / 2).

(** The centre [(Ux, Uy)] of [calculateRadius]. *)
Definition circumcentre (p1 p2 p3 : Point) : real * real :=
  let x1 := x p1 in let y1 := y p1 in
  let x2 := x p2 in let y2 := y p2 in
  let x3 := x p3 in let y3 := y p3 in
  let D := App.det p1 p2 p3 in
  (((x1 ^ 2 + y1 ^ 2) * (y2 - y3) + (x2 ^ 2 + y2 ^ 2) * (y3 - y1)
    + (x3 ^ 2 + y3 ^ 2) * (y1 - y2)) / D,
   ((x1 ^ 2 + y1 ^ 2) * (x3 - x2) + (x2 ^ 2 + y2 ^ 2) * (x1 - x3)
    + (x3 ^ 2 + y3 ^ 2) * (x2 - x1)) / D).

(** The distance of a point to a centre [(ux, uy)]. *)
Definition distanceTo (u : real * real) (p : Point) : real :=
  Math.hypot (x p - fst u) (y p - snd u).

(** The summed [length] of a segment list. *)
Definition sumLengths (segments : list Segment.t) : real :=
  fold_right (fun s acc => Segment.length s + acc) 0 segments.

(** ** App.jsx, first revision: the segment list of [runSimulation] *)

Module LegacyApp.

(** The segment pushed at loop index [i]: the radius of a corner is
    scaled by 5. *)
Definition segmentAt (circuitPoints : list Point) (i : nat) : Segment.t :=
  let pPrev := at_ circuitPoints (i - 1) in
  let pCurr := at_ circuitPoints i in
  let dist := Math.hypot (x pCurr - x pPrev) (y pCurr - y pPrev) in
  let radius := Traced.value
    (App.calculateRadius (at_ circuitPoints (Nat.max 0 (i - 2))) pPrev pCurr) in
  let isCorner :=
    (if Rgt_dec radius 0 then true else false) &&
    (if Rlt_dec radius 500 then true else false) in
  Segment.mk ("seg-" ++ showNat i)
             (if isCorner then "corner" else "straight")
             dist
             (if isCorner then radius * 5 else 0).

(** [{...s, length: s.length * 5}] *)
Definition scaleLength (s : Segment.t) : Segment.t :=
  Segment.mk (Segment.id s) (Segment.type s) (Segment.length s * 5) (Segment.radius s).

(** [payload.circuit.segments] of [runSimulation]; [None] when the
    guard on fewer than 3 points returns before building anything. *)
Definition payloadSegments (circuitPoints : list Point) : option (list Segment.t) :=
  if (List.length circuitPoints <? 3)%nat then None
  else Some (map scaleLength
                 (map (segmentAt circuitPoints) (GeometryEngine.indices circuitPoints))).

End LegacyApp.

(** A segment with its length and radius multiplied by [k]. *)
Definition scaleSegment (k : real) (s : Segment.t) : Segment.t :=
  Segment.mk (Segment.id s) (Segment.type s) (Segment.length s * k) (Segment.radius s * k).

(** ** App.jsx: pit stops *)

Module Strategy.

Record PitStop := mk { lap : Z; tire : string }.

(** [pitStops[pitStops.length - 1].lap + 1], or [Math.floor(totalLaps / 2)]
    for the first stop; [totalLaps] is an integer ([parseInt(...) || 1]). *)
Definition nextLap (totalLaps : Z) (pitStops : list PitStop) : Z :=
  match pitStops with
  | [] => (totalLaps / 2)%Z
  | first :: rest => (lap (last rest first) + 1)%Z
  end.

Definition addPitStop (totalLaps : Z) (pitStops : list PitStop) : list PitStop :=
  if (totalLaps - 1 <=? Z.of_nat (List.length pitStops))%Z then pitStops
  else pitStops ++ [mk (Z.min (nextLap totalLaps pitStops) (totalLaps - 1)) "hard"].

(** [pitStops.filter((_, i) => i !== index)] *)
Fixpoint filterIndex (from index : nat) (pitStops : list PitStop) : list PitStop :=
  match pitStops with
  | [] => []
  | s :: rest =>
      if (from =? index)%nat then filterIndex (S from) index rest
      else s :: filterIndex (S from) index rest
  end.

Definition removePitStop (pitStops : list PitStop) (index : nat) : list PitStop :=
  filterIndex 0 index pitStops.

(** The two buttons of the strategy panel. *)
Inductive Action :=
| Add
| Remove (index : nat).

Definition step (totalLaps : Z) (pitStops : list PitStop) (a : Action) : list PitStop :=
  match a with
  | Add => addPitStop totalLaps pitStops
  | Remove index => removePitStop pitStops index
  end.

(** The pit stops after a run of clicks, from the initial empty list. *)
Definition run (totalLaps : Z) (actions : list Action) : list PitStop :=
  fold_left (step totalLaps) actions [].

End Strategy.

(** ** App.jsx: leaderboard and race animation *)

Module Leaderboard.

Record Entry := mk
  { name : string; time : real; laps : Z; tire : string; date : string }.

(** [Array.prototype.sort] is stable, so sorting with the comparator
    [(a, b) => a.time - b.time] has one possible result: the entries
    in ascending [time], equal times in their original order.  It is
    computed here by insertion. *)
Fixpoint insert (e : Entry) (sorted : list Entry) : list Entry :=
  match sorted with
  | [] => [e]
  | f :: rest =>
      if Rle_dec (time e) (time f) then e :: f :: rest
      else f :: insert e rest
  end.

Definition sort (entries : list Entry) : list Entry :=
  fold_right insert [] entries.

(** [[...leaderboard, entry].sort(...).slice(0, 10)] *)
Definition update (leaderboard : list Entry) (entry : Entry) : list Entry :=
  firstn 10 (sort (leaderboard ++ [entry])).

End Leaderboard.

Module Animation.

(** [progress] of [runSimulation] at telemetry sample [i] of lap
    [lapIdx], for [dataLength] laps of [telemetryLength] samples. *)
Definition progress (dataLength lapIdx telemetryLength i : nat) : real :=
  ((INR lapIdx + (INR i / INR telemetryLength)) / INR dataLength) * 100.

(** The progress set at sample [i] of lap [lapIdx] of a race whose
    laps have telemetry of the lengths [telemetryLengths]
    ([data.length] laps, lap [lapIdx] with [telemetry.length] of its
    own). *)
Definition progressAt (telemetryLengths : list nat) (lapIdx i : nat) : real :=
  progress (List.length telemetryLengths) lapIdx (nth lapIdx telemetryLengths O) i.

(** The sample the car is drawn at for [raceProgress]: the index
    [Math.min(Math.floor(raceProgress / 100 * (length - 1)), length - 1)];
    [None] where the lookup gives [undefined] and the position is
    left as it was. *)
Definition carIndex (length : nat) (raceProgress : real) : Z :=
  Z.min (Math.floor ((raceProgress / 100) * (INR length - 1)))
        (Z.of_nat length - 1).

Definition carPoint {A : Type} (smoothPoints : list A) (raceProgress : real)
  : option A :=
  let index := carIndex (List.length smoothPoints) raceProgress in
  if (index <? 0)%Z then None else nth_error smoothPoints (Z.to_nat index).

(** [Math.floor((p2.speed || 1.0) * 180)], the hue of the speed line. *)
Definition hue (p : SplinePoint) : Z :=
  let speed := match speed p with
               | Some v => if Req_dec_T v 0 then 1.0 else v
               | None => 1.0
               end in
  Math.floor (speed * 180).

End Animation.

(** ** App.jsx: the fallback layout of [loadTemplate] *)

Module Template.

(** The running position and the points pushed so far. *)
Record Walk := mkWalk { w_x : real; w_y : real; w_points : list Point }.

(** The body of [data.segments.forEach((seg, i) => ...)], for [n]
    segments. *)
Definition walkStep (n : nat) (w : Walk) (item : nat * Segment.t) : Walk :=
  let '(i, seg) := item in
  let angle := (INR i / INR n) * Math.PI * 2 in
  let x := w_x w + Math.cos angle * (Segment.length seg / 10) in
  let y := w_y w + Math.sin angle * (Segment.length seg / 10) in
  mkWalk x y
         (w_points w ++ [xy (Math.min 800 (Math.max 50 x))
                            (Math.min 500 (Math.max 50 y))]).

Definition walked (segments : list Segment.t) : list Point :=
  w_points (fold_left (walkStep (List.length segments))
                      (combine (seq 0 (List.length segments)) segments)
                      (mkWalk 200 200 [])).

(** The layout for a non-empty segment list: the walked points, then
    a copy of the first one. *)
Definition fallbackLayout (first : Segment.t) (rest : list Segment.t) : list Point :=
  let points := walked (first :: rest) in
  points ++ [at_ points 0].

End Template.

(** ** ValidationPanel.jsx *)

Module ValidationPanel.

(** [validation]: a report of the validator, or the default
    [{ isValid: true, issues: [], stats: {} }]. *)
Record Validation := mkValidation
  { isValid : bool; issues : list Issue.t; stats : option Stats }.

Definition ofReport (r : Report) : Validation :=
  match r with
  | mkReport valid found stats => mkValidation valid found (Some stats)
  end.

(** [totalLength] and [validation] as the panel computes them; [None]
    where the panel renders nothing. *)
Definition compute (points : Circuit) (isComplete : bool)
  : option (real * Validation) :=
  if (App.circuitLength points <? 3)%nat then None
  else
    match points with
    | Geodetic pts =>
        let origin := nth 0 pts (mkLatLng 0 0) in
        let meterPoints :=
          map (fun p => GeometryEngine.latLonToMeters
                          (lat p) (lng p) (lat origin) (lng origin)) pts in
        Some (GeometryEngine.calculateCircuitLength meterPoints,
              ofReport (GeometryEngine.validateGeometry meterPoints isComplete))
    | Planar pts =>
        Some (fold_left (GeometryEngine.lengthStep pts) (GeometryEngine.indices pts) 0,
              mkValidation true [] None)
    end.

End ValidationPanel.

(** The laps of a pit-stop list never decrease along the list. *)
Definition lapsAscending (l : list Strategy.PitStop) : Prop :=
  StronglySorted (fun a b => (Strategy.lap a <= Strategy.lap b)%Z) l.

(** Leaderboard order: no slower than. *)
Definition timeLe (a b : Leaderboard.Entry) : Prop :=
  Leaderboard.time a <= Leaderboard.time b.

(** The drawing area the fallback layout is clamped to. *)
Definition inBox (p : Point) : Prop :=
  50 <= x p <= 800 /\ 50 <= y p <= 500.

(** The blend of four coordinates at the curve parameter [st], with
    the weights [q0 .. q3] of the sampling loop, and its tangent with
    the weights [dq0 .. dq3]. *)
Definition blend (c0 c1 c2 c3 st : real) : real :=
  let tt := st * st in
  let ttt := tt * st in
  let q0 := - ttt + 2 * tt - st in
  let q1 := 3 * ttt - 5 * tt + 2 in
  let q2 := -3 * ttt + 4 * tt + st in
  let q3 := ttt - st in
  0.5 * (c0 * q0 + c1 * q1 + c2 * q2 + c3 * q3).

Definition blendTangent (c0 c1 c2 c3 st : real) : real :=
  let tt := st * st in
  let dq0 := -3 * tt + 4 * st - 1 in
  let dq1 := 9 * tt - 10 * st in
  let dq2 := -9 * tt + 8 * st + 1 in
  let dq3 := 3 * tt - 1 in
  0.5 * (c0 * dq0 + c1 * dq1 + c2 * dq2 + c3 * dq3).

(** A sample that lies on the straight line from [p1] to [p2], with
    the direction of that line as its tangent. *)
Definition onStraight (p1 p2 : Point) (sp : SplinePoint) : Prop :=
  (exists ratio, 0 <= ratio <= 1 /\
                 x (point sp) = x p1 + (x p2 - x p1) * ratio /\
                 y (point sp) = y p1 + (y p2 - y p1) * ratio) /\
  dx sp = Some (x p2 - x p1) /\ dy sp = Some (y p2 - y p1).

(** ** CircuitEditor.jsx: mouse handling of the canvas editor *)

Module CanvasEditor.

Definition SNAP_GRID : real := 24.

(** [Math.round(v)]: the nearest integer, a half rounded up. *)
Definition round (v : real) : Z := Math.floor (v + 0.5).

(** [Math.round(v / SNAP_GRID) * SNAP_GRID] *)
Definition snap (v : real) : real := IZR (round (v / SNAP_GRID)) * SNAP_GRID.

(** [points.findIndex(p => Math.hypot(p.x - x, p.y - y) < 15)], from
    index [i] on; [None] is the result -1. *)
Fixpoint findIndexFrom (i : nat) (points : list Point) (mx my : real) : option nat :=
  match points with
  | [] => None
  | p :: rest =>
      if Rlt_dec (Math.hypot (x p - mx) (y p - my)) 15 then Some i
      else findIndexFrom (S i) rest mx my
  end.

Definition hitIndex (points : list Point) (mx my : real) : option nat :=
  findIndexFrom 0 points mx my.

(** The [points] prop and the two pieces of component state. *)
Record State := mkState
  { points : list Point;
    draggingPoint : option nat;
    hoveredPoint : option nat }.

Inductive Event :=
| MouseDown (mx my : real)
| MouseMove (mx my : real)
| MouseUp
| MouseLeave.

(** [newPoints[i] = p] on a copy of [points]: a write inside the array
    replaces, a write at its length appends; [None] where the write is
    further out and would leave holes in the array. *)
Definition assign (points : list Point) (i : nat) (p : Point) : option (list Point) :=
  if (i <? List.length points)%nat then Some (firstn i points ++ p :: skipn (S i) points)
  else if (i =? List.length points)%nat then Some (points ++ [p])
  else None.

Definition handleMouseDown (isSimulating : bool) (s : State) (mx my : real) : State :=
  if isSimulating then s
  else
    match hitIndex (points s) mx my with
    | Some hit => mkState (points s) (Some hit) (hoveredPoint s)
    | None =>
        mkState (points s ++ [xy (snap mx) (snap my)])
                (draggingPoint s) (hoveredPoint s)
    end.

Definition handleMouseMove (isSimulating : bool) (s : State) (mx my : real)
  : option State :=
  match draggingPoint s, isSimulating with
  | Some i, false =>
      match assign (points s) i (xy (snap mx) (snap my)) with
      | Some newPoints => Some (mkState newPoints (draggingPoint s) (hoveredPoint s))
      | None => None
      end
  | _, _ => Some (mkState (points s) (draggingPoint s) (hitIndex (points s) mx my))
  end.

(** One event, with the value of the [isSimulating] prop at the time. *)
Definition handle (s : State) (e : bool * Event) : option State :=
  match e with
  | (isSimulating, MouseDown mx my) => Some (handleMouseDown isSimulating s mx my)
  | (isSimulating, MouseMove mx my) => handleMouseMove isSimulating s mx my
  | (_, MouseUp) => Some (mkState (points s) None (hoveredPoint s))
  | (_, MouseLeave) => Some (mkState (points s) None None)
  end.

Fixpoint run (s : State) (events : list (bool * Event)) : option State :=
  match events with
  | [] => Some s
  | e :: rest =>
      match handle s e with
      | Some s' => run s' rest
      | None => None
      end
  end.

End CanvasEditor.

(** A point on the snap grid. *)
Definition onGrid (p : Point) : Prop :=
  exists kx ky : Z,
    x p = IZR kx * CanvasEditor.SNAP_GRID /\ y p = IZR ky * CanvasEditor.SNAP_GRID.

(** The invariant of the editor: points on the grid, at least as many
    as at the start, and a dragged index inside the array. *)
Definition editorInvariant (initial : nat) (s : CanvasEditor.State) : Prop :=
  Forall onGrid (CanvasEditor.points s) /\
  (initial <= List.length (CanvasEditor.points s))%nat /\
  (forall i, CanvasEditor.draggingPoint s = Some i ->
             (i < List.length (CanvasEditor.points s))%nat).

(** ** CircuitEditor.jsx: the drawing click of the map editor *)

Module MapEditor.

(** A control point of the map editor: [{lat, lng, type}]. *)
Record GeoPoint := mkGeoPoint { position : LatLng; tag : option string }.

Section WithMap.

(** [map.latLngToContainerPoint], Leaflet's projection to pixels. *)
Variable latLngToContainerPoint : LatLng -> Point.

(** [hitIndex]: the first control point within 15 pixels of the
    click; [None] is -1. *)
Definition hitIndex (points : list GeoPoint) (click : LatLng) : option nat :=
  let containerPoint := latLngToContainerPoint click in
  let projectedPoints := map (fun p => latLngToContainerPoint (position p)) points in
  CanvasEditor.findIndexFrom 0 projectedPoints (x containerPoint) (y containerPoint).

(** The [mousedown] handler: the new [points] and, where it starts a
    drag, the dragged index.  [blocked] is
    [isSimulating || ghostProgress !== undefined || isRealMode]. *)
Definition mousedown (blocked : bool) (activeTool : string)
           (points : list GeoPoint) (click : LatLng)
  : list GeoPoint * option nat :=
  if blocked then (points, None)
  else
    let hit := hitIndex points click in
    if String.eqb activeTool "select" then (points, hit)
    else
      let type := if String.eqb activeTool "straight" then "straight"%string
                  else "corner"%string in
      match hit with
      | Some 0%nat =>
          if (3 <=? List.length points)%nat then
            let startPoint := nth 0 points (mkGeoPoint (mkLatLng 0 0) None) in
            (points ++ [mkGeoPoint (position startPoint) (Some type)], None)
          else (points, None)
      | Some _ => (points, None)
      | None => (points ++ [mkGeoPoint click (Some type)], None)
      end.

End WithMap.

(** What [checkCircuitComplete] reads of the points [handlePointsChange]
    hands it. *)
Definition circuitOf (points : list GeoPoint) : Circuit :=
  Geodetic (map position points).

End MapEditor.

(** The heading of the segment from [p] to [q], in radians. *)
Definition heading (p q : Point) : real :=
  Math.atan2 (y q - y p) (x q - x p).

(** The turn on the way [p1 -> p2 -> p3] in the specification's words:
    the absolute difference between the incoming and the outgoing
    segment heading, in degrees, wrapped to [[0, 180]]. *)
Definition turnAngle (p1 p2 p3 : Point) : real :=
  let d := Rabs (heading p1 p2 - heading p2 p3) * 180 / PI in
  Rmin d (360 - d).


(** * Properties *)

(** ** Facts about [Math] *)

Lemma atan2_bound (b a : real) : - Math.PI <= Math.atan2 b a <= Math.PI.
Proof.
  unfold Math.atan2, Math.PI.
  pose proof PI_RGT_0 as Hpi.
  pose proof (atan_bound (b / a)) as [Hlo Hhi].
  destruct (Rlt_dec 0 a) as [Ha | Ha]; [lra |].
  destruct (Rlt_dec a 0) as [Ha' | Ha'].
  - assert (Hinv : / a < 0) by (apply Rinv_lt_0_compat; exact Ha').
    destruct (Rle_dec 0 b) as [Hb | Hb].
    + assert (Hq : b / a <= 0) by (unfold Rdiv; nra).
      assert (atan (b / a) <= 0).
      { destruct Hq as [Hq | Hq].
        - left. rewrite <- atan_0. apply atan_increasing; exact Hq.
        - rewrite Hq, atan_0. lra. }
      lra.
    + assert (Hq : 0 < b / a) by (unfold Rdiv; nra).
      assert (0 < atan (b / a)).
      { rewrite <- atan_0. apply atan_increasing; exact Hq. }
      lra.
  - destruct (Rlt_dec 0 b); [lra |].
    destruct (Rlt_dec b 0); lra.
Qed.

Lemma atan2_0_1 : Math.atan2 0 1 = 0.
Proof.
  unfold Math.atan2.
  destruct (Rlt_dec 0 1) as [_ | H]; [| lra].
  replace (0 / 1) with 0 by lra. apply atan_0.
Qed.

Lemma hypot_nonneg (a b : real) : 0 <= Math.hypot a b.
Proof. unfold Math.hypot. apply sqrt_pos. Qed.

Lemma hypot_0_r (a : real) : 0 <= a -> Math.hypot a 0 = a.
Proof.
  intros Ha. unfold Math.hypot.
  replace (a * a + 0 * 0) with (Rsqr a) by (unfold Rsqr; ring).
  apply sqrt_Rsqr; exact Ha.
Qed.

(** The wrapped heading difference of the speed pass and of the turn
    check lies between 0 and half a turn. *)
Lemma wrapped_diff_bound (a1 a2 : real) :
  - Math.PI <= a1 <= Math.PI -> - Math.PI <= a2 <= Math.PI ->
  let diff := Math.abs (a1 - a2) in
  0 <= (if Rgt_dec diff Math.PI then 2 * Math.PI - diff else diff) <= Math.PI.
Proof.
  intros H1 H2 diff. subst diff. unfold Math.abs.
  pose proof (Rabs_pos (a1 - a2)) as Hpos.
  assert (Hle : Rabs (a1 - a2) <= 2 * Math.PI).
  { apply Rabs_le. lra. }
  destruct (Rgt_dec (Rabs (a1 - a2)) Math.PI) as [Hgt | Hgt]; lra.
Qed.

(** ** Haversine distance and projection *)

Lemma getDistanceMeters_same_lat_lon (lat1 lon1 : real) :
  GeometryEngine.getDistanceMeters lat1 lon1 lat1 lon1 = 0.
Proof.
  unfold GeometryEngine.getDistanceMeters, Math.sin, Math.cos, Math.sqrt.
  replace ((lat1 - lat1) * Math.PI / 180 / 2) with 0 by lra.
  replace ((lon1 - lon1) * Math.PI / 180 / 2) with 0 by lra.
  rewrite sin_0.
  match goal with
  | |- context [sqrt ?a] =>
      replace a with 0 by ring
  end.
  replace (1 - 0) with 1 by ring.
  rewrite sqrt_0, sqrt_1, atan2_0_1. ring.
Qed.

(** C6: the haversine distance of a point to itself is 0, and a point
    projected with itself as the origin lands on (0, 0). *)
Theorem self_distance_and_projection (p : LatLng) :
  GeometryEngine.getDistanceMeters (lat p) (lng p) (lat p) (lng p) = 0 /\
  GeometryEngine.latLonToMeters (lat p) (lng p) (lat p) (lng p) = xy 0 0.
Proof.
  split.
  - apply getDistanceMeters_same_lat_lon.
  - unfold GeometryEngine.latLonToMeters.
    rewrite getDistanceMeters_same_lat_lon.
    destruct (Rgt_dec (lng p) (lng p)) as [H | _]; [lra |].
    destruct (Rgt_dec (lat p) (lat p)) as [H | _]; [lra |].
    replace (- 0) with 0 by ring. reflexivity.
Qed.

(** ** The accuracy score *)

(** C8: whatever the two point arguments, and for every draw in
    [[0, 1)], the accuracy score lies in [[85, 95]] and is the same for
    any other pair of point arguments. *)
Theorem calculateAccuracyScore_range (rnd : real)
        (drawnPoints referencePoints : list Point) :
  0 <= rnd < 1 ->
  85 <= GeometryEngine.calculateAccuracyScore rnd drawnPoints referencePoints <= 95 /\
  forall drawnPoints' referencePoints',
    GeometryEngine.calculateAccuracyScore rnd drawnPoints' referencePoints' =
    GeometryEngine.calculateAccuracyScore rnd drawnPoints referencePoints.
Proof.
  intros Hrnd. unfold GeometryEngine.calculateAccuracyScore. split.
  - lra.
  - reflexivity.
Qed.

Lemma calculateAccuracyScore_range_witness :
  85 <= GeometryEngine.calculateAccuracyScore (1 / 2) [xy 0 0] [xy 3 4; xy 5 6] <= 95 /\
  forall drawnPoints' referencePoints',
    GeometryEngine.calculateAccuracyScore (1 / 2) drawnPoints' referencePoints' =
    GeometryEngine.calculateAccuracyScore (1 / 2) [xy 0 0] [xy 3 4; xy 5 6].
Proof.
  apply (calculateAccuracyScore_range (1 / 2) [xy 0 0] [xy 3 4; xy 5 6]). lra.
Defined.

(** ** The validator ignores [closed] *)

(** C9: the report of [validateGeometry] is the same for both values
    of [closed]. *)
Theorem validateGeometry_closed_irrelevant (points : list Point) :
  GeometryEngine.validateGeometry points true =
  GeometryEngine.validateGeometry points false.
Proof. reflexivity. Qed.

(** ** Loops over the indices of the point array *)

Lemma at_cons_S (p : Point) (l : list Point) (i : nat) :
  at_ (p :: l) (S i) = at_ l i.
Proof. reflexivity. Qed.

Lemma at_map (f : Point -> Point) (l : list Point) (i : nat) :
  (i < List.length l)%nat -> at_ (map f l) i = f (at_ l i).
Proof.
  intros Hi. unfold at_.
  rewrite (nth_indep (map f l) (xy 0 0) (f (xy 0 0)))
    by (rewrite length_map; exact Hi).
  apply map_nth.
Qed.

Lemma fold_left_ext_on {A B : Type} (f g : A -> B -> A) (l : list B) :
  (forall a b, In b l -> f a b = g a b) ->
  forall a, fold_left f l a = fold_left g l a.
Proof.
  induction l as [| b l IH]; intros Hfg a; simpl.
  - reflexivity.
  - rewrite (Hfg a b) by (left; reflexivity).
    apply IH. intros a' b' Hin. apply Hfg. right. exact Hin.
Qed.

Lemma fold_left_shift {A : Type} (f : A -> nat -> A) (l : list nat) (a : A) :
  fold_left f (map S l) a = fold_left (fun a i => f a (S i)) l a.
Proof.
  revert a. induction l as [| i l IH]; intros a; simpl.
  - reflexivity.
  - apply IH.
Qed.

Lemma lengthStep_cons (p : Point) (l : list Point) (acc : real) (i : nat) :
  (1 <= i)%nat ->
  GeometryEngine.lengthStep (p :: l) acc (S i) = GeometryEngine.lengthStep l acc i.
Proof.
  intros Hi. unfold GeometryEngine.lengthStep.
  destruct i as [| j]; [lia |].
  replace (S (S j) - 1)%nat with (S j) by lia.
  replace (S j - 1)%nat with j by lia.
  rewrite !at_cons_S. reflexivity.
Qed.

Lemma lengthLoop_pathLength (points : list Point) (acc : real) :
  fold_left (GeometryEngine.lengthStep points) (GeometryEngine.indices points) acc
  = acc + pathLength points.
Proof.
  revert acc. induction points as [| p rest IH]; intros acc.
  - simpl. ring.
  - destruct rest as [| q rest'].
    + simpl. ring.
    + unfold GeometryEngine.indices in *.
      replace (List.length (p :: q :: rest') - 1)%nat
        with (S (List.length (q :: rest') - 1)) by (simpl; lia).
      rewrite <- cons_seq, <- seq_shift.
      cbn [fold_left]. rewrite fold_left_shift.
      rewrite (fold_left_ext_on _ (GeometryEngine.lengthStep (q :: rest'))).
      * rewrite IH. unfold GeometryEngine.lengthStep, at_. cbn [nth Nat.sub pathLength].
        ring.
      * intros a i Hin. apply in_seq in Hin.
        apply lengthStep_cons. lia.
Qed.

Lemma calculateCircuitLength_pathLength (points : list Point) :
  GeometryEngine.calculateCircuitLength points = pathLength points.
Proof.
  unfold GeometryEngine.calculateCircuitLength.
  rewrite lengthLoop_pathLength. ring.
Qed.

(** What the loop of [validateGeometry] leaves in [totalLength] and
    [issues], from any state and over any run of indices. *)
Lemma validateLoop_from (points : list Point) (l : list nat) :
  forall s,
    let s' := fold_left (GeometryEngine.validateStep points) l s in
    GeometryEngine.v_totalLength s'
    = fold_left (GeometryEngine.lengthStep points) l (GeometryEngine.v_totalLength s) /\
    GeometryEngine.v_issues s'
    = GeometryEngine.v_issues s ++ flat_map (issuesAt points) l.
Proof.
  induction l as [| i l IH]; intros s; cbn zeta.
  - simpl. rewrite app_nil_r. split; reflexivity.
  - cbn [fold_left flat_map].
    destruct (IH (GeometryEngine.validateStep points s i)) as [Ht Hi].
    rewrite Ht, Hi. clear Ht Hi IH.
    unfold GeometryEngine.validateStep, issuesAt, GeometryEngine.lengthStep.
    destruct (1 <? i)%nat.
    + destruct (Rlt_dec (GeometryEngine.turnDiff points i) 2);
        cbn [GeometryEngine.v_totalLength GeometryEngine.v_issues];
        rewrite <- app_assoc; split; reflexivity.
    + cbn [GeometryEngine.v_totalLength GeometryEngine.v_issues].
      split; reflexivity.
Qed.

Lemma validateGeometry_issues (points : list Point) (closed : bool) :
  issues (GeometryEngine.validateGeometry points closed)
  = flat_map (issuesAt points) (GeometryEngine.indices points)
    ++ GeometryEngine.lengthIssues (pathLength points).
Proof.
  unfold GeometryEngine.validateGeometry, GeometryEngine.validateLoop.
  cbn [issues].
  destruct (validateLoop_from points (GeometryEngine.indices points)
              (GeometryEngine.mkVState [] 0 0 0)) as [Ht Hi].
  cbn zeta in Ht, Hi. rewrite Ht, Hi.
  cbn [GeometryEngine.v_totalLength GeometryEngine.v_issues app].
  rewrite lengthLoop_pathLength.
  replace (0 + pathLength points) with (pathLength points) by ring.
  reflexivity.
Qed.

Lemma validateGeometry_totalLength (points : list Point) (closed : bool) :
  totalLength (stats (GeometryEngine.validateGeometry points closed))
  = pathLength points.
Proof.
  unfold GeometryEngine.validateGeometry, GeometryEngine.validateLoop.
  cbn [stats totalLength].
  destruct (validateLoop_from points (GeometryEngine.indices points)
              (GeometryEngine.mkVState [] 0 0 0)) as [Ht _].
  cbn zeta in Ht. rewrite Ht.
  cbn [GeometryEngine.v_totalLength].
  rewrite lengthLoop_pathLength. ring.
Qed.

(** ** Circuit length under rigid motions *)

Lemma hypot_rigidMotion (theta : real) (c : Point) (tx ty : real) (p q : Point) :
  Math.hypot (x (rigidMotion theta c tx ty q) - x (rigidMotion theta c tx ty p))
             (y (rigidMotion theta c tx ty q) - y (rigidMotion theta c tx ty p))
  = Math.hypot (x q - x p) (y q - y p).
Proof.
  unfold Math.hypot, rigidMotion, translate, rotateAbout. cbn [x y].
  f_equal.
  pose proof (sin2_cos2 theta) as Hsc. unfold Rsqr in Hsc.
  set (s := sin theta) in *. set (k := cos theta) in *.
  replace ((x q - x p) * (x q - x p) + (y q - y p) * (y q - y p))
    with ((s * s + k * k) * ((x q - x p) * (x q - x p) + (y q - y p) * (y q - y p)))
    by (rewrite Hsc; ring).
  ring.
Qed.

Lemma pathLength_rigidMotion (theta : real) (c : Point) (tx ty : real)
      (points : list Point) :
  pathLength (map (rigidMotion theta c tx ty) points) = pathLength points.
Proof.
  induction points as [| p rest IH].
  - reflexivity.
  - destruct rest as [| q rest'].
    + reflexivity.
    + cbn [map pathLength] in *. rewrite IH, hypot_rigidMotion. reflexivity.
Qed.

(** C7: a rotation about any centre followed by any translation,
    applied to every point, leaves [calculateCircuitLength] unchanged. *)
Theorem calculateCircuitLength_rigid_invariant
        (theta : real) (c : Point) (tx ty : real) (points : list Point) :
  GeometryEngine.calculateCircuitLength (map (rigidMotion theta c tx ty) points)
  = GeometryEngine.calculateCircuitLength points.
Proof.
  rewrite !calculateCircuitLength_pathLength.
  apply pathLength_rigidMotion.
Qed.

(** ** The issues of the validator *)

Lemma issuesAt_index (points : list Point) (j : nat) (e : Issue.t) :
  In e (issuesAt points j) -> Issue.index e = Some j.
Proof.
  unfold issuesAt, GeometryEngine.turnIssues.
  destruct (1 <? j)%nat; [| intros []].
  destruct (Rgt_dec _ 160); [intros [<- | []]; reflexivity |].
  destruct (Rgt_dec _ 120); [intros [<- | []]; reflexivity | intros []].
Qed.

Lemma in_turn_issues (points : list Point) (e : Issue.t) (i : nat) :
  Issue.index e = Some i -> (2 <= i < List.length points)%nat ->
  In e (issues (GeometryEngine.validateGeometry points false)) <->
  In e (GeometryEngine.turnIssues (GeometryEngine.turnDiff points i) i).
Proof.
  intros He Hi. rewrite validateGeometry_issues, in_app_iff, in_flat_map.
  assert (Hat : issuesAt points i
                = GeometryEngine.turnIssues (GeometryEngine.turnDiff points i) i).
  { unfold issuesAt. replace (1 <? i)%nat with true; [reflexivity |].
    symmetry. apply Nat.ltb_lt. lia. }
  split.
  - intros [(j & Hj & Hin) | Hin].
    + pose proof (issuesAt_index _ _ _ Hin) as Hidx.
      assert (j = i) by congruence. subst j. rewrite <- Hat. exact Hin.
    + exfalso. unfold GeometryEngine.lengthIssues in Hin.
      apply in_app_iff in Hin.
      destruct (Rlt_dec _ 3000), (Rgt_dec _ 8000);
        cbn in Hin; destruct Hin as [Hin | Hin];
        repeat (destruct Hin as [Hin | Hin]); try contradiction;
        subst e; discriminate He.
  - intros Hin. left. exists i. split.
    + unfold GeometryEngine.indices. apply in_seq. lia.
    + rewrite Hat. exact Hin.
Qed.


(** ** Headings and the turn angle *)






Lemma turnDiff_turnAngle (points : list Point) (i : nat) :
  GeometryEngine.turnDiff points i
  = turnAngle (at_ points (i - 2)) (at_ points (i - 1)) (at_ points i).
Proof.
  unfold GeometryEngine.turnDiff, turnAngle, heading, Math.abs, Math.PI.
  cbv zeta.
  set (d := Rabs _ * 180 / PI).
  unfold Rmin. destruct (Rgt_dec d 180), (Rle_dec d (360 - d)); lra.
Qed.





Lemma atan2_along_x (a : real) :
  (0 < a -> Math.atan2 0 a = 0) /\ (a < 0 -> Math.atan2 0 a = PI).
Proof.
  unfold Math.atan2. split; intros Ha.
  - destruct (Rlt_dec 0 a) as [_ | H]; [| contradiction].
    unfold Rdiv. rewrite Rmult_0_l. apply atan_0.
  - destruct (Rlt_dec 0 a) as [H | _]; [lra |].
    destruct (Rlt_dec a 0) as [_ | H]; [| contradiction].
    destruct (Rle_dec 0 0) as [_ | H]; [| lra].
    unfold Rdiv. rewrite Rmult_0_l, atan_0. ring.
Qed.

Lemma turnAngle_reversal : turnAngle (xy 0 0) (xy 10 0) (xy 0 0) = 180.
Proof.
  unfold turnAngle, heading. cbn [x y xy]. cbv zeta.
  replace (0 - 0) with 0 by ring.
  rewrite (proj1 (atan2_along_x (10 - 0))) by lra.
  rewrite (proj2 (atan2_along_x (0 - 10))) by lra.
  pose proof PI_RGT_0 as Hpi.
  replace (0 - PI) with (- PI) by ring. rewrite Rabs_Ropp, Rabs_pos_eq by lra.
  replace (PI * 180 / PI) with 180 by (field; lra).
  unfold Rmin. destruct (Rle_dec 180 (360 - 180)); lra.
Qed.

Lemma turnAngle_135 : turnAngle (xy 0 0) (xy 10 0) (xy 0 10) = 135.
Proof.
  unfold turnAngle, heading. cbn [x y xy]. cbv zeta.
  replace (0 - 0) with 0 by ring.
  rewrite (proj1 (atan2_along_x (10 - 0))) by lra.
  pose proof PI_RGT_0 as Hpi.
  assert (H2 : Math.atan2 (10 - 0) (0 - 10) = 3 * PI / 4).
  { unfold Math.atan2.
    destruct (Rlt_dec 0 (0 - 10)) as [H | _]; [lra |].
    destruct (Rlt_dec (0 - 10) 0) as [_ | H]; [| lra].
    destruct (Rle_dec 0 (10 - 0)) as [_ | H]; [| lra].
    replace ((10 - 0) / (0 - 10)) with (Ropp 1) by (field; lra).
    rewrite atan_opp, atan_1. lra. }
  rewrite H2.
  replace (0 - 3 * PI / 4) with (- (3 * PI / 4)) by lra.
  rewrite Rabs_Ropp, Rabs_pos_eq by lra.
  replace (3 * PI / 4 * 180 / PI) with 135 by (field; lra).
  unfold Rmin. destruct (Rle_dec 135 (360 - 135)); lra.
Qed.



(** The two turn issues on concrete paths: a full reversal is
    critical, a turn of 135 degrees a hairpin and not critical. *)
Example reversal_is_critical :
  In (GeometryEngine.sharpTurn 2)
     (issues (GeometryEngine.validateGeometry [xy 0 0; xy 10 0; xy 0 0] false)).
Proof.
  rewrite (in_turn_issues _ (GeometryEngine.sharpTurn 2) 2 eq_refl) by (simpl; lia).
  rewrite turnDiff_turnAngle. cbn [at_ nth Nat.sub]. rewrite turnAngle_reversal.
  unfold GeometryEngine.turnIssues.
  destruct (Rgt_dec 180 160); [left; reflexivity | lra].
Qed.

Example turn_135_is_hairpin :
  In (GeometryEngine.tightHairpin 2)
     (issues (GeometryEngine.validateGeometry [xy 0 0; xy 10 0; xy 0 10] false)) /\
  ~ In (GeometryEngine.sharpTurn 2)
       (issues (GeometryEngine.validateGeometry [xy 0 0; xy 10 0; xy 0 10] false)).
Proof.
  rewrite (in_turn_issues _ (GeometryEngine.tightHairpin 2) 2 eq_refl) by (simpl; lia).
  rewrite (in_turn_issues _ (GeometryEngine.sharpTurn 2) 2 eq_refl) by (simpl; lia).
  rewrite turnDiff_turnAngle. cbn [at_ nth Nat.sub]. rewrite turnAngle_135.
  unfold GeometryEngine.turnIssues.
  destruct (Rgt_dec 135 160); [lra |].
  destruct (Rgt_dec 135 120); [| lra].
  split; [left; reflexivity |].
  intros [H | []]. discriminate H.
Qed.

Lemma in_lengthIssues (e : Issue.t) (total : real) :
  In e (GeometryEngine.lengthIssues total) <->
  (e = GeometryEngine.tooShort /\ total < 3000) \/
  (e = GeometryEngine.tooLong /\ total > 8000).
Proof.
  unfold GeometryEngine.lengthIssues. rewrite in_app_iff.
  destruct (Rlt_dec total 3000) as [Hs | Hs], (Rgt_dec total 8000) as [Hl | Hl];
    cbn [In]; intuition (auto; try lra).
Qed.



(** The boundary cases of the specification, on a two-point path along
    the x axis. *)
Lemma pathLength_axis (d : real) :
  0 <= d -> pathLength [xy 0 0; xy d 0] = d.
Proof.
  intros Hd. cbn [pathLength x y xy].
  replace (d - 0) with d by ring. replace (0 - 0) with 0 by ring.
  rewrite hypot_0_r by exact Hd. ring.
Qed.

Lemma report_axis (d : real) (closed : bool) :
  0 <= d ->
  issues (GeometryEngine.validateGeometry [xy 0 0; xy d 0] closed)
  = GeometryEngine.lengthIssues d.
Proof.
  intros Hd. rewrite validateGeometry_issues, pathLength_axis by exact Hd.
  reflexivity.
Qed.

Example path_3000_no_warning :
  issues (GeometryEngine.validateGeometry [xy 0 0; xy 3000 0] false) = [].
Proof.
  rewrite report_axis by lra. unfold GeometryEngine.lengthIssues.
  destruct (Rlt_dec 3000 3000); [lra |]. destruct (Rgt_dec 3000 8000); [lra |].
  reflexivity.
Qed.

Example path_2999_too_short :
  issues (GeometryEngine.validateGeometry [xy 0 0; xy 2999 0] false)
  = [GeometryEngine.tooShort].
Proof.
  rewrite report_axis by lra. unfold GeometryEngine.lengthIssues.
  destruct (Rlt_dec 2999 3000); [| lra]. destruct (Rgt_dec 2999 8000); [lra |].
  reflexivity.
Qed.

Example path_8000_no_warning :
  issues (GeometryEngine.validateGeometry [xy 0 0; xy 8000 0] false) = [].
Proof.
  rewrite report_axis by lra. unfold GeometryEngine.lengthIssues.
  destruct (Rlt_dec 8000 3000); [lra |]. destruct (Rgt_dec 8000 8000); [lra |].
  reflexivity.
Qed.

Example path_8001_too_long :
  issues (GeometryEngine.validateGeometry [xy 0 0; xy 8001 0] false)
  = [GeometryEngine.tooLong].
Proof.
  rewrite report_axis by lra. unfold GeometryEngine.lengthIssues.
  destruct (Rlt_dec 8001 3000); [lra |]. destruct (Rgt_dec 8001 8000); [| lra].
  reflexivity.
Qed.

(** ** Fewer than three points *)

Lemma checkCircuitComplete_short (points : Circuit) :
  (App.circuitLength points < 3)%nat -> App.checkCircuitComplete points = false.
Proof.
  intros Hlen. apply Nat.ltb_lt in Hlen.
  destruct points as [pts | pts]; cbn [App.circuitLength] in Hlen;
    unfold App.checkCircuitComplete; rewrite Hlen; reflexivity.
Qed.

Lemma isLoopClosedWithin_short (tolerance : real) (pts : list Point) :
  (List.length pts < 3)%nat -> CircuitEditor.isLoopClosedWithin tolerance pts = false.
Proof.
  intros Hlen. apply Nat.ltb_lt in Hlen.
  unfold CircuitEditor.isLoopClosedWithin. rewrite Hlen. reflexivity.
Qed.

Lemma validateLoop_short (points : list Point) :
  (List.length points < 3)%nat ->
  GeometryEngine.v_issues (GeometryEngine.validateLoop points) = [] /\
  GeometryEngine.v_longestStraight (GeometryEngine.validateLoop points) = 0.
Proof.
  intros Hlen.
  destruct points as [| p [| q [| r rest]]]; cbn in Hlen; try lia;
    split; reflexivity.
Qed.

Lemma lengthIssues_nil (total : real) :
  GeometryEngine.lengthIssues total = [] <-> 3000 <= total <= 8000.
Proof.
  unfold GeometryEngine.lengthIssues.
  destruct (Rlt_dec total 3000), (Rgt_dec total 8000); cbn [app];
    split; intros H; try discriminate H; try reflexivity; lra.
Qed.

(** C1, as the code has it: with fewer than 3 points every closure
    check returns false; the validator raises no turn issue, so its
    report is valid exactly when the total length lies in
    [[3000, 8000]], and its stats are the total length, the initial
    sharpest turn 180 and the initial longest straight 0. *)
Theorem fewer_than_three_points (circuit : Circuit) (points : list Point)
        (closed : bool) :
  (App.circuitLength circuit < 3)%nat ->
  (List.length points < 3)%nat ->
  App.checkCircuitComplete circuit = false /\
  CircuitEditor.isLoopClosed points = false /\
  CircuitEditor.isLoopClosedSnap points = false /\
  stats (GeometryEngine.validateGeometry points closed)
  = mkStats (pathLength points) 180 0 /\
  (forall e, In e (issues (GeometryEngine.validateGeometry points closed)) ->
             e = GeometryEngine.tooShort \/ e = GeometryEngine.tooLong) /\
  (isValid (GeometryEngine.validateGeometry points closed) = true <->
   3000 <= pathLength points <= 8000).
Proof.
  intros Hc Hp.
  split; [apply checkCircuitComplete_short; exact Hc |].
  split; [apply isLoopClosedWithin_short; exact Hp |].
  split; [apply isLoopClosedWithin_short; exact Hp |].
  pose proof (validateGeometry_totalLength points closed) as Htotal.
  pose proof (validateGeometry_issues points closed) as Hissues.
  destruct (validateLoop_short points Hp) as [Hnil Hstraight].
  assert (Hturn : flat_map (issuesAt points) (GeometryEngine.indices points) = []).
  { destruct points as [| p [| q [| r rest]]]; cbn in Hp; try lia; reflexivity. }
  rewrite Hturn in Hissues. cbn [app] in Hissues.
  split; [| split].
  - unfold GeometryEngine.validateGeometry in *. cbn [stats totalLength] in *.
    rewrite Htotal, Hstraight. reflexivity.
  - intros e He. rewrite Hissues in He. apply in_lengthIssues in He.
    destruct He as [[He _] | [He _]]; [left | right]; exact He.
  - rewrite <- lengthIssues_nil, <- Hissues.
    unfold GeometryEngine.validateGeometry. cbn [isValid issues].
    rewrite Nat.eqb_eq. apply length_zero_iff_nil.
Qed.

Lemma fewer_than_three_points_witness :
  let circuit := Geodetic [mkLatLng 43 7; mkLatLng 43 7] in
  let points := [xy 0 0; xy 5000 0] in
  App.checkCircuitComplete circuit = false /\
  CircuitEditor.isLoopClosed points = false /\
  CircuitEditor.isLoopClosedSnap points = false /\
  stats (GeometryEngine.validateGeometry points false)
  = mkStats (pathLength points) 180 0 /\
  (forall e, In e (issues (GeometryEngine.validateGeometry points false)) ->
             e = GeometryEngine.tooShort \/ e = GeometryEngine.tooLong) /\
  (isValid (GeometryEngine.validateGeometry points false) = true <->
   3000 <= pathLength points <= 8000).
Proof.
  apply (fewer_than_three_points
           (Geodetic [mkLatLng 43 7; mkLatLng 43 7]) [xy 0 0; xy 5000 0] false);
    simpl; lia.
Defined.

(** The claim as the specification words it fails on the empty
    sequence: the length check runs on it too, and total length 0 is
    below 3000. *)
Lemma validateGeometry_empty_not_valid :
  (List.length (@nil Point) < 3)%nat /\
  isValid (GeometryEngine.validateGeometry [] false) = false /\
  sharpestTurn (stats (GeometryEngine.validateGeometry [] false)) = 180.
Proof.
  split; [simpl; lia |].
  split; [| reflexivity].
  unfold GeometryEngine.validateGeometry, GeometryEngine.validateLoop.
  cbn [GeometryEngine.indices List.length Nat.sub seq fold_left
       GeometryEngine.v_issues GeometryEngine.v_totalLength app isValid].
  unfold GeometryEngine.lengthIssues.
  destruct (Rlt_dec 0 3000) as [_ | H]; [| lra].
  destruct (Rgt_dec 0 8000) as [H | _]; [lra |].
  reflexivity.
Qed.

(** ** Degenerate radius and the first segment *)

Lemma calculateRadius_degenerate (p1 p2 p3 : Point) :
  Math.abs (App.det p1 p2 p3) < 1e-5 ->
  App.calculateRadius p1 p2 p3 = Traced.ret 0.
Proof.
  intros HD. unfold App.calculateRadius.
  destruct (Rlt_dec (Math.abs (App.det p1 p2 p3)) 1e-5) as [_ | H]; [| contradiction].
  reflexivity.
Qed.

(** Past the guard both coordinates of the circumcentre are divided by
    [D], which is then at least 1e-5 in absolute value. *)
Lemma calculateRadius_divisions (p1 p2 p3 : Point) :
  ~ Math.abs (App.det p1 p2 p3) < 1e-5 ->
  Traced.divisions (App.calculateRadius p1 p2 p3)
  = [App.det p1 p2 p3; App.det p1 p2 p3].
Proof.
  intros HD. unfold App.calculateRadius.
  destruct (Rlt_dec (Math.abs (App.det p1 p2 p3)) 1e-5) as [H | _]; [contradiction |].
  reflexivity.
Qed.

Lemma calculateRadius_divisor_nonzero (p1 p2 p3 : Point) :
  Forall (fun d => d <> 0) (Traced.divisions (App.calculateRadius p1 p2 p3)).
Proof.
  destruct (Rlt_dec (Math.abs (App.det p1 p2 p3)) 1e-5) as [HD | HD].
  - rewrite (calculateRadius_degenerate _ _ _ HD). constructor.
  - rewrite (calculateRadius_divisions _ _ _ HD).
    assert (Hne : App.det p1 p2 p3 <> 0).
    { intros H0. apply HD. rewrite H0. unfold Math.abs. rewrite Rabs_R0. lra. }
    repeat constructor; exact Hne.
Qed.

Lemma segmentAt_degenerate (meterPoints : list Point) (i : nat) :
  (let '(p1, p2, p3) := App.radiusPoints meterPoints i in
   Math.abs (App.det p1 p2 p3) < 1e-5) ->
  Segment.type (App.segmentAt meterPoints i) = "straight"%string /\
  Segment.radius (App.segmentAt meterPoints i) = 0.
Proof.
  unfold App.radiusPoints. intros HD.
  unfold App.segmentAt. rewrite (calculateRadius_degenerate _ _ _ HD).
  cbn [Traced.value Traced.ret fst].
  destruct (Rgt_dec 0 0) as [H | _]; [lra |].
  cbn [andb Segment.type Segment.radius]. split; reflexivity.
Qed.

Lemma buildSegments_nth (circuitPoints : Circuit) (i : nat) :
  (1 <= i < App.circuitLength circuitPoints)%nat ->
  nth_error (App.buildSegments circuitPoints) (i - 1)
  = Some (App.segmentAt (App.meterPoints circuitPoints) i).
Proof.
  intros Hi. unfold App.buildSegments.
  replace (App.circuitLength circuitPoints <? 2)%nat with false
    by (symmetry; apply Nat.ltb_ge; lia).
  assert (Hlen : List.length (App.meterPoints circuitPoints)
                 = App.circuitLength circuitPoints).
  { destruct circuitPoints; cbn [App.meterPoints App.circuitLength];
      [apply length_map | reflexivity]. }
  unfold GeometryEngine.indices. rewrite Hlen.
  rewrite nth_error_map, nth_error_nth' with (d := O) by (rewrite length_seq; lia).
  rewrite seq_nth by lia. cbn [option_map].
  replace (1 + (i - 1))%nat with i by lia. reflexivity.
Qed.

(** C2: for three points whose determinant has [|D| < 1e-5],
    [calculateRadius] returns 0 without executing a division, and a
    segment whose radius [buildSegments] takes from those three points
    is ['straight'] with radius 0. *)
Theorem degenerate_radius_is_straight (p1 p2 p3 : Point) :
  Math.abs (App.det p1 p2 p3) < 1e-5 ->
  Traced.value (App.calculateRadius p1 p2 p3) = 0 /\
  Traced.divisions (App.calculateRadius p1 p2 p3) = [] /\
  forall circuitPoints i,
    (1 <= i < App.circuitLength circuitPoints)%nat ->
    App.radiusPoints (App.meterPoints circuitPoints) i = (p1, p2, p3) ->
    exists seg,
      nth_error (App.buildSegments circuitPoints) (i - 1) = Some seg /\
      Segment.id seg = ("seg-" ++ showNat i)%string /\
      Segment.type seg = "straight"%string /\ Segment.radius seg = 0.
Proof.
  intros HD.
  rewrite (calculateRadius_degenerate _ _ _ HD).
  split; [reflexivity |]. split; [reflexivity |].
  intros circuitPoints i Hi Hpts.
  exists (App.segmentAt (App.meterPoints circuitPoints) i).
  split; [apply buildSegments_nth; exact Hi |].
  split; [reflexivity |].
  apply segmentAt_degenerate. rewrite Hpts. exact HD.
Qed.

Lemma degenerate_radius_is_straight_witness :
  let p1 := xy 0 0 in let p2 := xy 100 0 in let p3 := xy 250 0 in
  Traced.value (App.calculateRadius p1 p2 p3) = 0 /\
  Traced.divisions (App.calculateRadius p1 p2 p3) = [] /\
  forall circuitPoints i,
    (1 <= i < App.circuitLength circuitPoints)%nat ->
    App.radiusPoints (App.meterPoints circuitPoints) i = (p1, p2, p3) ->
    exists seg,
      nth_error (App.buildSegments circuitPoints) (i - 1) = Some seg /\
      Segment.id seg = ("seg-" ++ showNat i)%string /\
      Segment.type seg = "straight"%string /\ Segment.radius seg = 0.
Proof.
  apply (degenerate_radius_is_straight (xy 0 0) (xy 100 0) (xy 250 0)).
  unfold App.det, Math.abs. cbn [x y xy].
  replace (2 * (0 * (0 - 0) + 100 * (0 - 0) + 250 * (0 - 0))) with 0 by ring.
  rewrite Rabs_R0. lra.
Defined.

Lemma det_repeated (p q : Point) : App.det p p q = 0.
Proof. unfold App.det. ring. Qed.

(** C10: for a circuit of at least 2 points the first segment of
    [buildSegments] is ['seg-1'], ['straight'] with radius 0: its
    radius is taken from the first point twice and the second, whose
    determinant is exactly 0. *)
Theorem first_segment_is_straight (circuitPoints : Circuit) :
  (2 <= App.circuitLength circuitPoints)%nat ->
  exists seg rest,
    App.buildSegments circuitPoints = seg :: rest /\
    Segment.id seg = "seg-1"%string /\
    Segment.type seg = "straight"%string /\
    Segment.radius seg = 0 /\
    (let '(p1, p2, p3) := App.radiusPoints (App.meterPoints circuitPoints) 1 in
     p1 = p2 /\ App.det p1 p2 p3 = 0).
Proof.
  intros Hlen.
  pose proof (buildSegments_nth circuitPoints 1 ltac:(lia)) as Hnth.
  cbn [Nat.sub] in Hnth.
  destruct (App.buildSegments circuitPoints) as [| seg rest]; [discriminate Hnth |].
  cbn [nth_error] in Hnth. injection Hnth as ->.
  exists (App.segmentAt (App.meterPoints circuitPoints) 1), rest.
  split; [reflexivity |].
  split; [reflexivity |].
  assert (HD : Math.abs (App.det (at_ (App.meterPoints circuitPoints) 0)
                                 (at_ (App.meterPoints circuitPoints) 0)
                                 (at_ (App.meterPoints circuitPoints) 1)) < 1e-5).
  { rewrite det_repeated. unfold Math.abs. rewrite Rabs_R0. lra. }
  destruct (segmentAt_degenerate (App.meterPoints circuitPoints) 1 HD) as [Ht Hr].
  split; [exact Ht |]. split; [exact Hr |].
  cbn [App.radiusPoints Nat.sub Nat.max]. split; [reflexivity | apply det_repeated].
Qed.

Lemma first_segment_is_straight_witness :
  let circuitPoints := Planar [xy 0 0; xy 30 40; xy 60 0] in
  exists seg rest,
    App.buildSegments circuitPoints = seg :: rest /\
    Segment.id seg = "seg-1"%string /\
    Segment.type seg = "straight"%string /\
    Segment.radius seg = 0 /\
    (let '(p1, p2, p3) := App.radiusPoints (App.meterPoints circuitPoints) 1 in
     p1 = p2 /\ App.det p1 p2 p3 = 0).
Proof.
  apply (first_segment_is_straight (Planar [xy 0 0; xy 30 40; xy 60 0])).
  simpl. lia.
Defined.

(** ** Speed factors of the spline generators *)

Lemma curvature_nonneg (splinePoints : list Sample) (i : nat) :
  0 <= Spline.curvature splinePoints i.
Proof.
  unfold Spline.curvature.
  destruct ((0 <? i)%nat && (i <? List.length splinePoints - 1)%nat); [| lra].
  set (prev := sampleAt splinePoints (i - 1)).
  set (p := sampleAt splinePoints i).
  pose proof (wrapped_diff_bound _ _ (atan2_bound (s_dy prev) (s_dx prev))
                                 (atan2_bound (s_dy p) (s_dx p))) as H.
  cbn zeta in H. lra.
Qed.

Lemma minSpeed_value :
  minSpeed = 900719925474099 / 4503599627370496 /\ minSpeed < 0.2.
Proof. unfold minSpeed, double_0_8. split; lra. Qed.

Lemma speedOf_range (splinePoints : list Sample) (i : nat) :
  minSpeed <= Spline.speedOf splinePoints i <= 1.0.
Proof.
  unfold Spline.speedOf, Math.min, minSpeed.
  pose proof (curvature_nonneg splinePoints i) as Hc.
  unfold Rmin. destruct (Rle_dec (Spline.curvature splinePoints i) double_0_8);
    unfold double_0_8 in *; lra.
Qed.

(** At the cap the speed is [1.0 - 0.8]. *)
Lemma speedOf_capped (splinePoints : list Sample) (i : nat) :
  double_0_8 <= Spline.curvature splinePoints i ->
  Spline.speedOf splinePoints i = minSpeed.
Proof.
  intros Hcap. unfold Spline.speedOf, Math.min, minSpeed, Rmin.
  destruct (Rle_dec (Spline.curvature splinePoints i) double_0_8); lra.
Qed.

Lemma ofSample_inRange (l : list Sample) :
  Forall sampleInRange l -> Forall speedInCodeRange (map ofSample l).
Proof.
  intros H. apply Forall_map. eapply Forall_impl; [| exact H].
  intros s Hs. exact Hs.
Qed.

Lemma withSpeed_one_inRange (points : list Point) :
  Forall speedInCodeRange (map (fun p => withSpeed p 1.0) points).
Proof.
  apply Forall_map, Forall_forall. intros p _.
  exists 1.0. split; [reflexivity | unfold minSpeed, double_0_8; lra].
Qed.

Lemma setSpeed_inRange (splinePoints : list Sample) (s : Sample) (i : nat) :
  sampleInRange (setSpeed s (Spline.speedOf splinePoints i)).
Proof.
  exists (Spline.speedOf splinePoints i).
  split; [reflexivity | apply speedOf_range].
Qed.

Lemma SplineEditor_withSpeeds_inRange (splinePoints : list Sample) :
  Forall sampleInRange (SplineEditor.withSpeeds splinePoints).
Proof.
  unfold SplineEditor.withSpeeds. apply Forall_map, Forall_forall.
  intros i _. apply setSpeed_inRange.
Qed.

Lemma MixedEditor_withSpeeds_inRange (splinePoints : list Sample) :
  Forall sampleInRange (MixedEditor.withSpeeds splinePoints).
Proof.
  unfold MixedEditor.withSpeeds. apply Forall_map, Forall_forall.
  intros i _. unfold MixedEditor.speedAt.
  destruct (s_speed (sampleAt splinePoints i)) as [v |] eqn:Hv.
  - destruct (Req_dec_T v 1.0) as [-> | Hne].
    + exists 1.0. split; [exact Hv | unfold minSpeed, double_0_8; lra].
    + apply setSpeed_inRange.
  - apply setSpeed_inRange.
Qed.

Lemma lastSpeed_inRange (l : list Sample) :
  l <> [] -> Forall sampleInRange l ->
  exists v, Spline.lastSpeed l = Some v /\ minSpeed <= v <= 1.0.
Proof.
  intros Hne Hall. unfold Spline.lastSpeed.
  destruct l as [| s l']; [contradiction |].
  rewrite Forall_forall in Hall. apply Hall.
  unfold sampleAt. apply nth_In. cbn [List.length]. lia.
Qed.





(** * Further properties of the code *)

(** ** Haversine distance *)

Lemma getDistanceMeters_haversine (lat1 lon1 lat2 lon2 : real) :
  GeometryEngine.getDistanceMeters lat1 lon1 lat2 lon2
  = GeometryEngine.R *
    (2 * Math.atan2 (Math.sqrt (haversine lat1 lon1 lat2 lon2))
                    (Math.sqrt (1 - haversine lat1 lon1 lat2 lon2))).
Proof. reflexivity. Qed.

Lemma haversine_sym (lat1 lon1 lat2 lon2 : real) :
  haversine lat1 lon1 lat2 lon2 = haversine lat2 lon2 lat1 lon1.
Proof.
  unfold haversine, Math.sin, Math.cos, Math.PI.
  replace ((lat1 - lat2) * PI / 180 / 2) with (- ((lat2 - lat1) * PI / 180 / 2)) by lra.
  replace ((lon1 - lon2) * PI / 180 / 2) with (- ((lon2 - lon1) * PI / 180 / 2)) by lra.
  rewrite !sin_neg. ring.
Qed.

Lemma sin_sqr_quarter (t : real) :
  - (PI / 6) <= t <= PI / 6 -> 0 <= sin t * sin t <= 1 / 4.
Proof.
  intros [Hlo Hhi]. pose proof PI_RGT_0 as Hpi.
  assert (Hup : sin t <= 1 / 2).
  { rewrite <- sin_PI6. apply sin_incr_1; lra. }
  assert (Hdown : - (1 / 2) <= sin t).
  { rewrite <- sin_PI6, <- sin_neg. apply sin_incr_1; lra. }
  split; nra.
Qed.

Lemma haversine_near (lat1 lon1 lat2 lon2 : real) :
  -90 <= lat1 <= 90 -> -90 <= lat2 <= 90 ->
  -60 <= lat2 - lat1 <= 60 -> -60 <= lon2 - lon1 <= 60 ->
  0 <= haversine lat1 lon1 lat2 lon2 <= 1 / 2.
Proof.
  intros H1 H2 Hlat Hlon. unfold haversine, Math.sin, Math.cos, Math.PI.
  pose proof PI_RGT_0 as Hpi.
  pose proof (sin_sqr_quarter ((lat2 - lat1) * PI / 180 / 2) ltac:(split; nra)) as Hu.
  pose proof (sin_sqr_quarter ((lon2 - lon1) * PI / 180 / 2) ltac:(split; nra)) as Hv.
  pose proof (cos_ge_0 (lat1 * PI / 180) ltac:(nra) ltac:(nra)) as Hc1.
  pose proof (cos_ge_0 (lat2 * PI / 180) ltac:(nra) ltac:(nra)) as Hc2.
  pose proof (COS_bound (lat1 * PI / 180)) as [_ Hb1].
  pose proof (COS_bound (lat2 * PI / 180)) as [_ Hb2].
  set (su := sin ((lat2 - lat1) * PI / 180 / 2)) in *.
  set (sv := sin ((lon2 - lon1) * PI / 180 / 2)) in *.
  set (c1 := cos (lat1 * PI / 180)) in *. set (c2 := cos (lat2 * PI / 180)) in *.
  replace (su * su + c1 * c2 * sv * sv) with (su * su + (c1 * c2) * (sv * sv)) by ring.
  assert (Hk : 0 <= c1 * c2 <= 1) by (split; nra).
  set (k := c1 * c2) in *. set (e := sv * sv) in *.
  split; nra.
Qed.

Lemma atan2_below_diagonal (b a : real) :
  0 <= b <= a -> 0 < a -> 0 <= Math.atan2 b a <= PI / 4.
Proof.
  intros [Hb Hba] Ha. unfold Math.atan2.
  destruct (Rlt_dec 0 a) as [_ | H]; [| contradiction].
  assert (Hinv : 0 < / a) by (apply Rinv_0_lt_compat; exact Ha).
  assert (Hq0 : 0 <= b / a) by (unfold Rdiv; nra).
  assert (Hq1 : b / a <= 1).
  { apply (Rmult_le_reg_r a); [exact Ha |].
    unfold Rdiv. rewrite Rmult_assoc, Rinv_l by lra. lra. }
  split.
  - destruct Hq0 as [Hq0 | Hq0].
    + left. rewrite <- atan_0. apply atan_increasing. exact Hq0.
    + rewrite <- Hq0, atan_0. lra.
  - rewrite <- atan_1. destruct Hq1 as [Hq1 | Hq1].
    + left. apply atan_increasing. exact Hq1.
    + rewrite Hq1. lra.
Qed.

(** X1: for two points with latitudes in [[-90, 90]] whose latitudes and
    whose longitudes differ by at most 60 degrees, the haversine
    distance is symmetric, its term [a] lies in [[0, 1/2]] (so both
    square roots are of non-negative numbers, [1 - a] being at least
    1/2), and the distance lies between 0 and a quarter of the
    circumference, [PI * R / 2]. *)
Theorem getDistanceMeters_symmetric_bounded (lat1 lon1 lat2 lon2 : real) :
  -90 <= lat1 <= 90 -> -90 <= lat2 <= 90 ->
  -60 <= lat2 - lat1 <= 60 -> -60 <= lon2 - lon1 <= 60 ->
  GeometryEngine.getDistanceMeters lat1 lon1 lat2 lon2
  = GeometryEngine.getDistanceMeters lat2 lon2 lat1 lon1 /\
  (0 <= haversine lat1 lon1 lat2 lon2 <= 1 / 2 /\
   1 / 2 <= 1 - haversine lat1 lon1 lat2 lon2) /\
  0 <= GeometryEngine.getDistanceMeters lat1 lon1 lat2 lon2
    <= Math.PI * GeometryEngine.R / 2.
Proof.
  intros H1 H2 Hlat Hlon.
  pose proof (haversine_near lat1 lon1 lat2 lon2 H1 H2 Hlat Hlon) as Ha.
  split; [| split].
  - rewrite !getDistanceMeters_haversine, (haversine_sym lat1 lon1 lat2 lon2).
    reflexivity.
  - split; [exact Ha | lra].
  - rewrite getDistanceMeters_haversine.
    set (a := haversine lat1 lon1 lat2 lon2) in *.
    assert (Hroot : 0 < Math.sqrt (1 - a)) by (apply sqrt_lt_R0; lra).
    assert (Hle : Math.sqrt a <= Math.sqrt (1 - a)) by (apply sqrt_le_1; lra).
    pose proof (atan2_below_diagonal (Math.sqrt a) (Math.sqrt (1 - a))
                  (conj (sqrt_pos a) Hle) Hroot) as [Hlo Hhi].
    unfold GeometryEngine.R, Math.PI in *. pose proof PI_RGT_0. nra.
Qed.

Lemma getDistanceMeters_symmetric_bounded_witness :
  GeometryEngine.getDistanceMeters 43 7 45 10
  = GeometryEngine.getDistanceMeters 45 10 43 7 /\
  (0 <= haversine 43 7 45 10 <= 1 / 2 /\ 1 / 2 <= 1 - haversine 43 7 45 10) /\
  0 <= GeometryEngine.getDistanceMeters 43 7 45 10
    <= Math.PI * GeometryEngine.R / 2.
Proof.
  apply (getDistanceMeters_symmetric_bounded 43 7 45 10); lra.
Defined.

Lemma atan2_sin_cos (t : real) :
  0 <= t < PI / 2 -> Math.atan2 (sin t) (cos t) = t.
Proof.
  intros [Hlo Hhi]. unfold Math.atan2.
  assert (Hc : 0 < cos t) by (apply cos_gt_0; lra).
  destruct (Rlt_dec 0 (cos t)) as [_ | H]; [| contradiction].
  change (sin t / cos t) with (tan t). apply atan_tan. lra.
Qed.

Lemma getDistanceMeters_meridian (lat1 lat2 lon : real) :
  -180 < lat2 - lat1 < 180 ->
  GeometryEngine.getDistanceMeters lat1 lon lat2 lon
  = GeometryEngine.R * (Rabs (lat2 - lat1) * Math.PI / 180).
Proof.
  intros Hd. rewrite getDistanceMeters_haversine.
  unfold haversine, Math.sin, Math.cos, Math.sqrt, Math.PI.
  pose proof PI_RGT_0 as Hpi.
  replace ((lon - lon) * PI / 180 / 2) with 0 by lra. rewrite sin_0.
  set (t := (lat2 - lat1) * PI / 180 / 2).
  assert (Ht : - (PI / 2) < t < PI / 2) by (unfold t; split; nra).
  pose proof (sin2_cos2 t) as Hsc. unfold Rsqr in Hsc.
  replace (sin t * sin t + cos (lat1 * PI / 180) * cos (lat2 * PI / 180) * 0 * 0)
    with (Rsqr (sin t)) by (unfold Rsqr; ring).
  replace (1 - Rsqr (sin t)) with (Rsqr (cos t)) by (unfold Rsqr; lra).
  rewrite !sqrt_Rsqr_abs.
  assert (Hc : 0 < cos t) by (apply cos_gt_0; lra).
  rewrite (Rabs_pos_eq (cos t)) by lra.
  destruct (Rle_dec 0 t) as [Hpos | Hneg].
  - assert (Hs : 0 <= sin t) by (apply sin_ge_0; lra).
    rewrite (Rabs_pos_eq (sin t)) by exact Hs.
    rewrite atan2_sin_cos by lra.
    rewrite Rabs_pos_eq by (unfold t in Hpos; nra).
    unfold t. lra.
  - assert (Hs : sin t < 0) by (apply sin_lt_0_var; lra).
    rewrite (Rabs_left (sin t)) by exact Hs.
    rewrite <- sin_neg, <- (cos_neg t).
    rewrite atan2_sin_cos by lra.
    rewrite Rabs_left by (unfold t in Hneg; nra).
    unfold t. lra.
Qed.

(** X2: along a meridian the haversine distance is the Earth radius times
    the latitude difference in radians, so the projected [y] is linear
    in the latitude and does not depend on either longitude. *)
Theorem latLonToMeters_y_linear (lat lon originLat originLon : real) :
  -180 < lat - originLat < 180 ->
  GeometryEngine.getDistanceMeters originLat originLon lat originLon
  = GeometryEngine.R * (Rabs (lat - originLat) * Math.PI / 180) /\
  y (GeometryEngine.latLonToMeters lat lon originLat originLon)
  = GeometryEngine.R * ((lat - originLat) * Math.PI / 180).
Proof.
  intros Hd.
  pose proof (getDistanceMeters_meridian originLat lat originLon Hd) as Hm.
  split; [exact Hm |].
  unfold GeometryEngine.latLonToMeters. cbn [y xy]. rewrite Hm.
  destruct (Rgt_dec lat originLat) as [Hgt | Hle].
  - rewrite Rabs_pos_eq by lra. reflexivity.
  - destruct (Req_dec lat originLat) as [-> | Hne].
    + replace (originLat - originLat) with 0 by ring. rewrite Rabs_R0. lra.
    + rewrite Rabs_left by lra. lra.
Qed.

Lemma latLonToMeters_y_linear_witness :
  GeometryEngine.getDistanceMeters 43 7 44 7
  = GeometryEngine.R * (Rabs (44 - 43) * Math.PI / 180) /\
  y (GeometryEngine.latLonToMeters 44 8 43 7)
  = GeometryEngine.R * ((44 - 43) * Math.PI / 180).
Proof.
  apply (latLonToMeters_y_linear 44 8 43 7). lra.
Defined.

(** ** Total length *)

Lemma pathLength_nonneg (points : list Point) : 0 <= pathLength points.
Proof.
  induction points as [| p rest IH]; [simpl; lra |].
  destruct rest as [| q rest']; [simpl; lra |].
  cbn [pathLength] in *. pose proof (hypot_nonneg (x q - x p) (y q - y p)). lra.
Qed.

Lemma hypot_triangle (p q r : Point) :
  Math.hypot (x r - x p) (y r - y p)
  <= Math.hypot (x q - x p) (y q - y p) + Math.hypot (x r - x q) (y r - y q).
Proof.
  pose proof (triangle (x r) (y r) (x p) (y p) (x q) (y q)) as H.
  unfold dist_euc, Rsqr in H. unfold Math.hypot.
  rewrite (Rplus_comm (sqrt ((x q - x p) * (x q - x p) + (y q - y p) * (y q - y p)))).
  exact H.
Qed.

Lemma last_cons_default {A : Type} (l : list A) (a d : A) :
  last (a :: l) d = last l a.
Proof.
  revert a d. induction l as [| b l IH]; intros a d; [reflexivity |].
  change (last (a :: b :: l) d) with (last (b :: l) d).
  rewrite (IH b d), (IH b a). reflexivity.
Qed.

Lemma last_at (p : Point) (rest : list Point) :
  at_ (p :: rest) (List.length (p :: rest) - 1) = last rest p.
Proof.
  unfold at_. cbn [List.length Nat.sub]. rewrite Nat.sub_0_r.
  revert p. induction rest as [| q l IH]; intros p; [reflexivity |].
  change (nth (List.length (q :: l)) (p :: q :: l) (xy 0 0))
    with (nth (List.length l) (q :: l) (xy 0 0)).
  rewrite (IH q). symmetry. apply last_cons_default.
Qed.

Lemma pathLength_ge_chord (p : Point) (rest : list Point) :
  Math.hypot (x (last rest p) - x p) (y (last rest p) - y p)
  <= pathLength (p :: rest).
Proof.
  revert p. induction rest as [| q rest' IH]; intros p.
  - change (pathLength [p]) with 0. cbn [last].
    replace (x p - x p) with 0 by ring.
    replace (y p - y p) with 0 by ring. rewrite hypot_0_r; lra.
  - change (pathLength (p :: q :: rest'))
      with (Math.hypot (x q - x p) (y q - y p) + pathLength (q :: rest')).
    specialize (IH q). rewrite (last_cons_default rest' q p).
    pose proof (hypot_triangle p q (last rest' q)). lra.
Qed.

(** X3: [calculateCircuitLength] and the [totalLength] of the validator
    are the same number for every point sequence; it is never
    negative, and never less than the straight-line distance from the
    first point to the last. *)
Theorem total_length_agrees (points : list Point) (closed : bool) :
  totalLength (stats (GeometryEngine.validateGeometry points closed))
  = GeometryEngine.calculateCircuitLength points /\
  0 <= GeometryEngine.calculateCircuitLength points /\
  forall first rest,
    points = first :: rest ->
    Math.hypot (x (last rest first) - x first) (y (last rest first) - y first)
    <= GeometryEngine.calculateCircuitLength points.
Proof.
  rewrite validateGeometry_totalLength, calculateCircuitLength_pathLength.
  split; [reflexivity |]. split; [apply pathLength_nonneg |].
  intros first rest ->. apply pathLength_ge_chord.
Qed.

Lemma pathLength_cons2 (a b : Point) (l : list Point) :
  pathLength (a :: b :: l)
  = Math.hypot (x b - x a) (y b - y a) + pathLength (b :: l).
Proof. reflexivity. Qed.

Lemma pathLength_snoc (l : list Point) (p q : Point) :
  pathLength (l ++ [p; q])
  = pathLength (l ++ [p]) + Math.hypot (x q - x p) (y q - y p).
Proof.
  induction l as [| a l IH].
  - cbn. ring.
  - destruct l as [| b l'].
    + cbn. ring.
    + change ((a :: b :: l') ++ [p; q]) with (a :: b :: (l' ++ [p; q])).
      change ((a :: b :: l') ++ [p]) with (a :: b :: (l' ++ [p])).
      rewrite !pathLength_cons2.
      change (b :: l' ++ [p; q]) with ((b :: l') ++ [p; q]).
      change (b :: l' ++ [p]) with ((b :: l') ++ [p]).
      rewrite IH. ring.
Qed.

Lemma hypot_swap (p q : Point) :
  Math.hypot (x p - x q) (y p - y q) = Math.hypot (x q - x p) (y q - y p).
Proof. unfold Math.hypot. f_equal. ring. Qed.

(** X4: the circuit length does not depend on the direction of travel. *)
Theorem calculateCircuitLength_rev (points : list Point) :
  GeometryEngine.calculateCircuitLength (rev points)
  = GeometryEngine.calculateCircuitLength points.
Proof.
  rewrite !calculateCircuitLength_pathLength.
  induction points as [| p rest IH]; [reflexivity |].
  destruct rest as [| q rest'].
  - reflexivity.
  - cbn [rev] in *. rewrite <- app_assoc. cbn [app].
    rewrite pathLength_snoc, IH, pathLength_cons2.
    rewrite (hypot_swap p q). ring.
Qed.

(** ** Statistics and validity of the report *)

Lemma validateLoop_stats_from (points : list Point) (l : list nat) :
  forall s,
    0 <= GeometryEngine.v_longestStraight s <= GeometryEngine.v_totalLength s ->
    0 <= GeometryEngine.v_currentStraight s <= GeometryEngine.v_totalLength s ->
    let s' := fold_left (GeometryEngine.validateStep points) l s in
    0 <= GeometryEngine.v_longestStraight s' <= GeometryEngine.v_totalLength s' /\
    0 <= GeometryEngine.v_currentStraight s' <= GeometryEngine.v_totalLength s'.
Proof.
  induction l as [| i l IH]; intros s Hl Hc; cbn zeta.
  - split; assumption.
  - cbn [fold_left]. apply IH; unfold GeometryEngine.validateStep;
      pose proof (hypot_nonneg (x (at_ points i) - x (at_ points (i - 1)))
                               (y (at_ points i) - y (at_ points (i - 1)))) as Hd;
      destruct (1 <? i)%nat;
      try destruct (Rlt_dec (GeometryEngine.turnDiff points i) 2);
      cbn [GeometryEngine.v_longestStraight GeometryEngine.v_totalLength
           GeometryEngine.v_currentStraight];
      unfold Math.max, Rmax;
      try destruct (Rle_dec (GeometryEngine.v_longestStraight s)
                            (GeometryEngine.v_currentStraight s));
      lra.
Qed.

(** X5: the statistics of every report: [sharpestTurn] is the initial 180,
    and [longestStraight] lies between 0 and [totalLength]. *)
Theorem report_stats_bounds (points : list Point) (closed : bool) :
  let s := stats (GeometryEngine.validateGeometry points closed) in
  sharpestTurn s = 180 /\
  0 <= longestStraight s <= totalLength s.
Proof.
  cbn zeta. split; [reflexivity |].
  unfold GeometryEngine.validateGeometry, GeometryEngine.validateLoop.
  cbn [stats longestStraight totalLength].
  apply (validateLoop_stats_from points (GeometryEngine.indices points)
           (GeometryEngine.mkVState [] 0 0 0));
    cbn [GeometryEngine.v_longestStraight GeometryEngine.v_totalLength
         GeometryEngine.v_currentStraight]; lra.
Qed.

Lemma turnIssues_nil (diff : real) (i : nat) :
  GeometryEngine.turnIssues diff i = [] <-> diff <= 120.
Proof.
  unfold GeometryEngine.turnIssues.
  destruct (Rgt_dec diff 160); [split; [discriminate | lra] |].
  destruct (Rgt_dec diff 120); [split; [discriminate | lra] |].
  split; [lra | reflexivity].
Qed.

Lemma flat_map_nil {A B : Type} (f : A -> list B) (l : list A) :
  flat_map f l = [] <-> forall a, In a l -> f a = [].
Proof.
  induction l as [| a l IH]; cbn [flat_map].
  - split; [intros _ a [] | reflexivity].
  - split.
    + intros H. apply app_eq_nil in H as [Ha Hl].
      intros b [<- | Hb]; [exact Ha | apply IH; assumption].
    + intros H. rewrite (H a (or_introl eq_refl)).
      apply IH. intros b Hb. apply H. right. exact Hb.
Qed.

(** X6: a report is valid exactly when no turn exceeds 120 degrees and
    the total length lies in [[3000, 8000]]. *)
Theorem isValid_iff (points : list Point) (closed : bool) :
  isValid (GeometryEngine.validateGeometry points closed) = true <->
  (forall i, (2 <= i < List.length points)%nat ->
             GeometryEngine.turnDiff points i <= 120) /\
  3000 <= pathLength points <= 8000.
Proof.
  assert (Hv : isValid (GeometryEngine.validateGeometry points closed) = true <->
               issues (GeometryEngine.validateGeometry points closed) = []).
  { unfold GeometryEngine.validateGeometry. cbn [isValid issues].
    rewrite Nat.eqb_eq. apply length_zero_iff_nil. }
  rewrite Hv, validateGeometry_issues. clear Hv.
  rewrite <- lengthIssues_nil.
  split.
  - intros H. apply app_eq_nil in H as [Hturn Hlen]. split; [| exact Hlen].
    intros i Hi. rewrite flat_map_nil in Hturn.
    specialize (Hturn i). unfold issuesAt in Hturn.
    replace (1 <? i)%nat with true in Hturn by (symmetry; apply Nat.ltb_lt; lia).
    apply (turnIssues_nil _ i), Hturn.
    unfold GeometryEngine.indices. apply in_seq. lia.
  - intros [Hturn Hlen]. rewrite Hlen, app_nil_r.
    apply flat_map_nil. intros i Hi.
    unfold GeometryEngine.indices in Hi. apply in_seq in Hi.
    unfold issuesAt. destruct (Nat.ltb_spec 1 i) as [H1 | H1]; [| reflexivity].
    apply turnIssues_nil, Hturn. lia.
Qed.

Lemma validateLoop_gentle_from (points : list Point) (l : list nat) :
  (forall i, In i l -> (1 < i)%nat -> GeometryEngine.turnDiff points i < 2) ->
  forall s,
    GeometryEngine.v_longestStraight
      (fold_left (GeometryEngine.validateStep points) l s)
    = GeometryEngine.v_longestStraight s.
Proof.
  induction l as [| i l IH]; intros Hg s; [reflexivity |].
  cbn [fold_left]. rewrite IH by (intros j Hj; apply Hg; right; exact Hj).
  unfold GeometryEngine.validateStep.
  destruct (Nat.ltb_spec 1 i) as [H1 | H1]; [| reflexivity].
  destruct (Rlt_dec (GeometryEngine.turnDiff points i) 2) as [_ | Hn];
    [reflexivity |].
  exfalso. apply Hn, Hg; [left; reflexivity | exact H1].
Qed.

(** X7: the running straight is recorded only when a turn of at least 2
    degrees ends it: on a path all of whose turns are below 2 degrees
    the report's [longestStraight] is 0, whatever the length. *)
Theorem longestStraight_needs_a_turn (points : list Point) (closed : bool) :
  (forall i, (2 <= i < List.length points)%nat ->
             GeometryEngine.turnDiff points i < 2) ->
  longestStraight (stats (GeometryEngine.validateGeometry points closed)) = 0.
Proof.
  intros Hg. unfold GeometryEngine.validateGeometry, GeometryEngine.validateLoop.
  cbn [stats longestStraight].
  rewrite validateLoop_gentle_from; [reflexivity |].
  intros i Hi H1. apply Hg.
  unfold GeometryEngine.indices in Hi. apply in_seq in Hi. lia.
Qed.

Lemma atan2_0_pos (a : real) : 0 < a -> Math.atan2 0 a = 0.
Proof.
  intros Ha. unfold Math.atan2.
  destruct (Rlt_dec 0 a) as [_ | H]; [| contradiction].
  unfold Rdiv. rewrite Rmult_0_l. apply atan_0.
Qed.

Lemma longestStraight_needs_a_turn_witness :
  longestStraight
    (stats (GeometryEngine.validateGeometry
              [xy 0 0; xy 1000 0; xy 4000 0] false)) = 0.
Proof.
  apply (longestStraight_needs_a_turn [xy 0 0; xy 1000 0; xy 4000 0] false).
  intros i Hi. cbn [List.length] in Hi.
  assert (i = 2%nat) as -> by lia.
  unfold GeometryEngine.turnDiff, at_. cbn [nth Nat.sub x y xy].
  replace (0 - 0) with 0 by ring.
  rewrite !atan2_0_pos by lra.
  unfold Math.abs, Math.PI. replace (0 - 0) with 0 by ring. rewrite Rabs_R0.
  replace (0 * 180 / PI) with 0 by (unfold Rdiv; ring).
  destruct (Rgt_dec 0 180); lra.
Defined.

(** ** Translating the points *)

Lemma at_translate (tx ty : real) (points : list Point) (i : nat) :
  (i < List.length points)%nat ->
  at_ (map (translate tx ty) points) i = translate tx ty (at_ points i).
Proof. apply at_map. Qed.

Lemma hypot_translate (tx ty : real) (p q : Point) :
  Math.hypot (x (translate tx ty q) - x (translate tx ty p))
             (y (translate tx ty q) - y (translate tx ty p))
  = Math.hypot (x q - x p) (y q - y p).
Proof.
  unfold translate. cbn [x y].
  replace (x q + tx - (x p + tx)) with (x q - x p) by ring.
  replace (y q + ty - (y p + ty)) with (y q - y p) by ring.
  reflexivity.
Qed.

Lemma turnDiff_translate (tx ty : real) (points : list Point) (i : nat) :
  (i < List.length points)%nat ->
  GeometryEngine.turnDiff (map (translate tx ty) points) i
  = GeometryEngine.turnDiff points i.
Proof.
  intros Hi. unfold GeometryEngine.turnDiff.
  rewrite !at_translate by lia. unfold translate. cbn [x y].
  replace (x (at_ points (i - 1)) + tx - (x (at_ points (i - 2)) + tx))
    with (x (at_ points (i - 1)) - x (at_ points (i - 2))) by ring.
  replace (y (at_ points (i - 1)) + ty - (y (at_ points (i - 2)) + ty))
    with (y (at_ points (i - 1)) - y (at_ points (i - 2))) by ring.
  replace (x (at_ points i) + tx - (x (at_ points (i - 1)) + tx))
    with (x (at_ points i) - x (at_ points (i - 1))) by ring.
  replace (y (at_ points i) + ty - (y (at_ points (i - 1)) + ty))
    with (y (at_ points i) - y (at_ points (i - 1))) by ring.
  reflexivity.
Qed.

Lemma validateStep_translate (tx ty : real) (points : list Point)
      (s : GeometryEngine.VState) (i : nat) :
  (i < List.length points)%nat ->
  GeometryEngine.validateStep (map (translate tx ty) points) s i
  = GeometryEngine.validateStep points s i.
Proof.
  intros Hi. unfold GeometryEngine.validateStep.
  rewrite turnDiff_translate by exact Hi.
  rewrite !at_translate by lia. rewrite hypot_translate. reflexivity.
Qed.

(** X8: moving every point by the same offset changes nothing in the
    report: the same issues at the same indices, the same statistics,
    the same validity. *)
Theorem validateGeometry_translation_invariant
        (tx ty : real) (points : list Point) (closed : bool) :
  GeometryEngine.validateGeometry (map (translate tx ty) points) closed
  = GeometryEngine.validateGeometry points closed.
Proof.
  unfold GeometryEngine.validateGeometry, GeometryEngine.validateLoop,
    GeometryEngine.indices.
  rewrite length_map.
  rewrite (fold_left_ext_on
             (GeometryEngine.validateStep (map (translate tx ty) points))
             (GeometryEngine.validateStep points)); [reflexivity |].
  intros s i Hi. apply in_seq in Hi. apply validateStep_translate. lia.
Qed.

(** ** Radius estimate *)

Lemma det_reversed (p1 p2 p3 : Point) : App.det p3 p2 p1 = - App.det p1 p2 p3.
Proof. unfold App.det. ring. Qed.

Lemma calculateRadius_value (p1 p2 p3 : Point) :
  ~ Math.abs (App.det p1 p2 p3) < 1e-5 ->
  Traced.value (App.calculateRadius p1 p2 p3)
  = Math.min (distanceTo (circumcentre p1 p2 p3) p1) 1000.
Proof.
  intros HD. unfold App.calculateRadius.
  destruct (Rlt_dec (Math.abs (App.det p1 p2 p3)) 1e-5) as [H | _]; [contradiction |].
  reflexivity.
Qed.

Lemma det_nonzero (p1 p2 p3 : Point) :
  ~ Math.abs (App.det p1 p2 p3) < 1e-5 -> App.det p1 p2 p3 <> 0.
Proof.
  intros HD H0. apply HD. rewrite H0. unfold Math.abs. rewrite Rabs_R0. lra.
Qed.

Lemma hypot_eq_of_squares (a b c d : real) :
  a * a + b * b = c * c + d * d -> Math.hypot a b = Math.hypot c d.
Proof. intros H. unfold Math.hypot. rewrite H. reflexivity. Qed.

Lemma circumcentre_equidistant (p1 p2 p3 : Point) :
  App.det p1 p2 p3 <> 0 ->
  distanceTo (circumcentre p1 p2 p3) p2 = distanceTo (circumcentre p1 p2 p3) p1 /\
  distanceTo (circumcentre p1 p2 p3) p3 = distanceTo (circumcentre p1 p2 p3) p1.
Proof.
  intros HD. unfold distanceTo, circumcentre. cbn [fst snd].
  split; apply hypot_eq_of_squares; unfold App.det in *; field;
    intros H0; apply HD; lra.
Qed.

Lemma circumcentre_reversed (p1 p2 p3 : Point) :
  App.det p1 p2 p3 <> 0 ->
  circumcentre p3 p2 p1 = circumcentre p1 p2 p3.
Proof.
  intros HD. unfold circumcentre. rewrite det_reversed.
  f_equal; unfold App.det in *; field; intros H0; apply HD; lra.
Qed.

(** X9: past the degeneracy guard the estimate is the radius of the circle
    through the three points, cut off at 1000: the centre the code
    computes is at the same distance from all three. *)
Theorem calculateRadius_is_circumradius (p1 p2 p3 : Point) :
  ~ Math.abs (App.det p1 p2 p3) < 1e-5 ->
  let centre := circumcentre p1 p2 p3 in
  Traced.value (App.calculateRadius p1 p2 p3) = Math.min (distanceTo centre p1) 1000 /\
  distanceTo centre p2 = distanceTo centre p1 /\
  distanceTo centre p3 = distanceTo centre p1.
Proof.
  intros HD centre. split; [apply calculateRadius_value; exact HD |].
  apply circumcentre_equidistant, det_nonzero, HD.
Qed.

Lemma calculateRadius_is_circumradius_witness :
  let centre := circumcentre (xy 0 0) (xy 100 0) (xy 100 100) in
  Traced.value (App.calculateRadius (xy 0 0) (xy 100 0) (xy 100 100))
  = Math.min (distanceTo centre (xy 0 0)) 1000 /\
  distanceTo centre (xy 100 0) = distanceTo centre (xy 0 0) /\
  distanceTo centre (xy 100 100) = distanceTo centre (xy 0 0).
Proof.
  apply (calculateRadius_is_circumradius (xy 0 0) (xy 100 0) (xy 100 100)).
  unfold App.det, Math.abs. cbn [x y xy].
  replace (2 * (0 * (0 - 100) + 100 * (100 - 0) + 100 * (0 - 0))) with 20000 by ring.
  rewrite Rabs_pos_eq by lra. lra.
Defined.

Lemma calculateRadius_range (p1 p2 p3 : Point) :
  0 <= Traced.value (App.calculateRadius p1 p2 p3) <= 1000.
Proof.
  destruct (Rlt_dec (Math.abs (App.det p1 p2 p3)) 1e-5) as [HD | HD].
  - rewrite (calculateRadius_degenerate _ _ _ HD). cbn. lra.
  - rewrite (calculateRadius_value _ _ _ HD). unfold Math.min, Rmin, distanceTo.
    pose proof (hypot_nonneg (x p1 - fst (circumcentre p1 p2 p3))
                             (y p1 - snd (circumcentre p1 p2 p3))).
    destruct (Rle_dec _ 1000); lra.
Qed.

(** X10: the estimate always lies in [[0, 1000]], and it is the same when
    the three points are taken in the opposite order. *)
Theorem calculateRadius_range_reversal (p1 p2 p3 : Point) :
  0 <= Traced.value (App.calculateRadius p1 p2 p3) <= 1000 /\
  Traced.value (App.calculateRadius p3 p2 p1)
  = Traced.value (App.calculateRadius p1 p2 p3).
Proof.
  split; [apply calculateRadius_range |].
  destruct (Rlt_dec (Math.abs (App.det p1 p2 p3)) 1e-5) as [HD | HD].
  - rewrite (calculateRadius_degenerate p1 p2 p3 HD).
    rewrite calculateRadius_degenerate; [reflexivity |].
    rewrite det_reversed. unfold Math.abs in *. rewrite Rabs_Ropp. exact HD.
  - assert (HD' : ~ Math.abs (App.det p3 p2 p1) < 1e-5).
    { rewrite det_reversed. unfold Math.abs in *. rewrite Rabs_Ropp. exact HD. }
    rewrite (calculateRadius_value _ _ _ HD), (calculateRadius_value _ _ _ HD').
    rewrite circumcentre_reversed by (apply det_nonzero; exact HD).
    destruct (circumcentre_equidistant p1 p2 p3 (det_nonzero _ _ _ HD)) as [_ H3].
    rewrite H3. reflexivity.
Qed.

(** ** The segment list *)

Lemma meterPoints_length (circuitPoints : Circuit) :
  List.length (App.meterPoints circuitPoints) = App.circuitLength circuitPoints.
Proof.
  destruct circuitPoints; cbn [App.meterPoints App.circuitLength];
    [apply length_map | reflexivity].
Qed.

Lemma buildSegments_map (circuitPoints : Circuit) :
  App.buildSegments circuitPoints
  = map (App.segmentAt (App.meterPoints circuitPoints))
        (seq 1 (App.circuitLength circuitPoints - 1)).
Proof.
  unfold App.buildSegments, GeometryEngine.indices. rewrite meterPoints_length.
  destruct (Nat.ltb_spec (App.circuitLength circuitPoints) 2) as [Hlt | Hge];
    [| reflexivity].
  replace (App.circuitLength circuitPoints - 1)%nat with 0%nat by lia. reflexivity.
Qed.

Lemma segmentAt_shape (meterPoints : list Point) (i : nat) :
  let seg := App.segmentAt meterPoints i in
  0 <= Segment.length seg /\
  ((Segment.type seg = "corner"%string /\ 0 < Segment.radius seg < 500) \/
   (Segment.type seg = "straight"%string /\ Segment.radius seg = 0)).
Proof.
  cbn zeta. unfold App.segmentAt. cbn [Segment.length Segment.type Segment.radius].
  split; [apply hypot_nonneg |].
  destruct (Rgt_dec _ 0) as [Hpos | Hnpos], (Rlt_dec _ 500) as [Hlt | Hnlt];
    cbn [andb]; [left; split; [reflexivity | lra] | right | right | right];
    split; reflexivity.
Qed.

(** X11: the segment list has one segment per consecutive pair of points,
    numbered ['seg-1'], ['seg-2'], ... in order; every length is
    non-negative; a ['corner'] has a radius strictly between 0 and 500
    and a ['straight'] has radius 0. *)
Theorem buildSegments_shape (circuitPoints : Circuit) :
  List.length (App.buildSegments circuitPoints)
  = (App.circuitLength circuitPoints - 1)%nat /\
  map Segment.id (App.buildSegments circuitPoints)
  = map (fun i => ("seg-" ++ showNat i)%string)
        (seq 1 (App.circuitLength circuitPoints - 1)) /\
  Forall (fun seg =>
            0 <= Segment.length seg /\
            ((Segment.type seg = "corner"%string /\ 0 < Segment.radius seg < 500) \/
             (Segment.type seg = "straight"%string /\ Segment.radius seg = 0)))
         (App.buildSegments circuitPoints).
Proof.
  rewrite buildSegments_map. split; [| split].
  - rewrite length_map, length_seq. reflexivity.
  - rewrite map_map. reflexivity.
  - apply Forall_map, Forall_forall. intros i _. apply segmentAt_shape.
Qed.

Lemma lengthLoop_sum (points : list Point) (l : list nat) (acc : real) :
  fold_left (GeometryEngine.lengthStep points) l acc
  = acc + sumLengths (map (App.segmentAt points) l).
Proof.
  revert acc. induction l as [| i l IH]; intros acc; cbn [fold_left map sumLengths fold_right].
  - ring.
  - rewrite IH. fold (sumLengths (map (App.segmentAt points) l)).
    unfold GeometryEngine.lengthStep.
    change (Segment.length (App.segmentAt points i))
      with (Math.hypot (x (at_ points i) - x (at_ points (i - 1)))
                       (y (at_ points i) - y (at_ points (i - 1)))).
    ring.
Qed.

Lemma sumLengths_buildSegments (circuitPoints : Circuit) :
  sumLengths (App.buildSegments circuitPoints)
  = GeometryEngine.calculateCircuitLength (App.meterPoints circuitPoints).
Proof.
  rewrite buildSegments_map. unfold GeometryEngine.calculateCircuitLength.
  rewrite lengthLoop_sum. unfold GeometryEngine.indices.
  rewrite meterPoints_length. ring.
Qed.

(** X12: the lengths of the segments add up to the circuit length of the
    points they were built from: [calculateCircuitLength] of the
    projected points, the sum of their consecutive distances. *)
Theorem buildSegments_total_length (circuitPoints : Circuit) :
  sumLengths (App.buildSegments circuitPoints)
  = GeometryEngine.calculateCircuitLength (App.meterPoints circuitPoints) /\
  sumLengths (App.buildSegments circuitPoints)
  = pathLength (App.meterPoints circuitPoints).
Proof.
  rewrite sumLengths_buildSegments, calculateCircuitLength_pathLength.
  split; reflexivity.
Qed.

Lemma legacy_segment_scaled (circuitPoints : list Point) (i : nat) :
  LegacyApp.scaleLength (LegacyApp.segmentAt circuitPoints i)
  = scaleSegment 5 (App.segmentAt circuitPoints i).
Proof.
  unfold LegacyApp.scaleLength, LegacyApp.segmentAt, App.segmentAt, scaleSegment.
  cbn [Segment.id Segment.type Segment.length Segment.radius].
  destruct (Rgt_dec _ 0), (Rlt_dec _ 500); cbn [andb]; f_equal; ring.
Qed.

(** X13: the first revision of [runSimulation] sends nothing below 3
    points; from 3 points on its payload is the segment list of
    [buildSegments] with every length and radius multiplied by 5. *)
Theorem legacy_payload_is_scaled (circuitPoints : list Point) :
  LegacyApp.payloadSegments circuitPoints
  = if (List.length circuitPoints <? 3)%nat then None
    else Some (map (scaleSegment 5) (App.buildSegments (Planar circuitPoints))).
Proof.
  unfold LegacyApp.payloadSegments.
  destruct (Nat.ltb_spec (List.length circuitPoints) 3) as [Hlt | Hge];
    [reflexivity |].
  f_equal. rewrite buildSegments_map.
  cbn [App.meterPoints App.circuitLength]. unfold GeometryEngine.indices.
  rewrite !map_map. apply map_ext. intros i. apply legacy_segment_scaled.
Qed.

(** ** Pit stops *)

Lemma filterIndex_past (from index : nat) (l : list Strategy.PitStop) :
  (index < from)%nat -> Strategy.filterIndex from index l = l.
Proof.
  revert from. induction l as [| s l IH]; intros from Hlt; cbn [Strategy.filterIndex].
  - reflexivity.
  - destruct (Nat.eqb_spec from index) as [-> | _]; [lia |].
    rewrite IH by lia. reflexivity.
Qed.

Lemma filterIndex_split (from k : nat) (l : list Strategy.PitStop) :
  Strategy.filterIndex from (from + k) l = firstn k l ++ skipn (S k) l.
Proof.
  revert from k. induction l as [| s l IH]; intros from k; cbn [Strategy.filterIndex].
  - rewrite firstn_nil, skipn_nil. reflexivity.
  - destruct k as [| k'].
    + rewrite Nat.add_0_r, Nat.eqb_refl. cbn [firstn skipn app].
      apply filterIndex_past. lia.
    + destruct (Nat.eqb_spec from (from + S k')) as [H | _]; [lia |].
      replace (from + S k')%nat with (S from + k')%nat by lia.
      rewrite IH. reflexivity.
Qed.

(** X15: removing a stop takes out exactly the stop at that index and keeps
    the others in order; an index past the end removes nothing; and
    removing at the old length after [addPitStop] gives back the list
    as it was, whether or not a stop was added. *)
Theorem removePitStop_spec (totalLaps : Z) (pitStops : list Strategy.PitStop)
        (index : nat) :
  Strategy.removePitStop pitStops index
  = firstn index pitStops ++ skipn (S index) pitStops /\
  ((List.length pitStops <= index)%nat ->
   Strategy.removePitStop pitStops index = pitStops) /\
  Strategy.removePitStop (Strategy.addPitStop totalLaps pitStops)
                         (List.length pitStops) = pitStops.
Proof.
  assert (Hsplit : forall l i, Strategy.removePitStop l i
                               = firstn i l ++ skipn (S i) l).
  { intros l i. unfold Strategy.removePitStop.
    apply (filterIndex_split 0 i l). }
  split; [apply Hsplit |]. split.
  - intros Hlen. rewrite Hsplit, firstn_all2, skipn_all2 by lia.
    apply app_nil_r.
  - rewrite Hsplit. unfold Strategy.addPitStop.
    destruct (totalLaps - 1 <=? Z.of_nat (List.length pitStops))%Z.
    + rewrite firstn_all, skipn_all2 by lia. apply app_nil_r.
    + rewrite firstn_app, firstn_all, Nat.sub_diag, skipn_all2
        by (rewrite length_app; cbn; lia).
      cbn [firstn]. rewrite !app_nil_r. reflexivity.
Qed.

Lemma laps_add_bound (totalLaps : Z) (l : list Strategy.PitStop) :
  Forall (fun s => (1 <= Strategy.lap s <= totalLaps - 1)%Z) l ->
  (Z.of_nat (List.length l) < totalLaps - 1)%Z ->
  (1 <= Z.min (Strategy.nextLap totalLaps l) (totalLaps - 1) <= totalLaps - 1)%Z.
Proof.
  intros Hall Hlen.
  assert (HT : (2 <= totalLaps)%Z) by lia.
  assert (Hnext : (1 <= Strategy.nextLap totalLaps l)%Z).
  { destruct l as [| first rest]; cbn [Strategy.nextLap].
    - apply Z.div_le_lower_bound; lia.
    - rewrite Forall_forall in Hall.
      assert (Hin : In (last rest first) (first :: rest)).
      { rewrite <- (last_cons_default rest first first).
        destruct (exists_last (l := first :: rest) ltac:(discriminate))
          as (l' & a & Heq).
        rewrite Heq, last_last. apply in_or_app. right. left. reflexivity. }
      specialize (Hall _ Hin). lia. }
  lia.
Qed.

Lemma filterIndex_Forall (P : Strategy.PitStop -> Prop) (from index : nat)
      (l : list Strategy.PitStop) :
  Forall P l -> Forall P (Strategy.filterIndex from index l).
Proof.
  revert from. induction l as [| s l IH]; intros from H;
    cbn [Strategy.filterIndex]; [constructor |].
  inversion H as [| ? ? Hs Hl]; subst.
  destruct (from =? index)%nat; [apply IH; exact Hl |].
  constructor; [exact Hs | apply IH; exact Hl].
Qed.


Lemma ascending_le_last (first : Strategy.PitStop) (rest : list Strategy.PitStop) :
  lapsAscending (first :: rest) ->
  Forall (fun s => (Strategy.lap s <= Strategy.lap (last rest first))%Z)
         (first :: rest).
Proof.
  revert first. induction rest as [| second rest IH]; intros first Hs.
  - constructor; [cbn; lia | constructor].
  - inversion Hs as [| ? ? Hrest Hfirst]; subst.
    rewrite (last_cons_default rest second first).
    specialize (IH second Hrest).
    constructor; [| exact IH].
    inversion Hfirst as [| ? ? Hle _]; subst.
    inversion IH as [| ? ? Hsecond _]; subst. lia.
Qed.

Lemma ascending_snoc (l : list Strategy.PitStop) (a : Strategy.PitStop) :
  lapsAscending l ->
  Forall (fun s => (Strategy.lap s <= Strategy.lap a)%Z) l ->
  lapsAscending (l ++ [a]).
Proof.
  unfold lapsAscending. induction l as [| s l IH]; intros Hs Hle; cbn [app].
  - constructor; constructor.
  - inversion Hs as [| ? ? Hl Hsl]; subst.
    inversion Hle as [| ? ? Hsa Hla]; subst.
    constructor; [apply IH; assumption |].
    apply Forall_app. split; [exact Hsl | constructor; [exact Hsa | constructor]].
Qed.

Lemma filterIndex_ascending (from index : nat) (l : list Strategy.PitStop) :
  lapsAscending l -> lapsAscending (Strategy.filterIndex from index l).
Proof.
  unfold lapsAscending. revert from.
  induction l as [| s l IH]; intros from Hs; cbn [Strategy.filterIndex];
    [constructor |].
  inversion Hs as [| ? ? Hl Hsl]; subst.
  destruct (from =? index)%nat; [apply IH; exact Hl |].
  constructor; [apply IH; exact Hl | apply filterIndex_Forall; exact Hsl].
Qed.

Lemma filterIndex_length (from index : nat) (l : list Strategy.PitStop) :
  (List.length (Strategy.filterIndex from index l) <= List.length l)%nat.
Proof.
  revert from. induction l as [| s l IH]; intros from; cbn [Strategy.filterIndex];
    [lia |].
  specialize (IH (S from)). destruct (from =? index)%nat; cbn [List.length]; lia.
Qed.

Lemma step_invariant (totalLaps : Z) (l : list Strategy.PitStop) (a : Strategy.Action) :
  (Z.of_nat (List.length l) <= Z.max 0 (totalLaps - 1))%Z /\
  Forall (fun s => (1 <= Strategy.lap s <= totalLaps - 1)%Z) l /\
  lapsAscending l ->
  let l' := Strategy.step totalLaps l a in
  (Z.of_nat (List.length l') <= Z.max 0 (totalLaps - 1))%Z /\
  Forall (fun s => (1 <= Strategy.lap s <= totalLaps - 1)%Z) l' /\
  lapsAscending l'.
Proof.
  intros (Hlen & Hall & Hasc). destruct a as [| index]; cbn [Strategy.step].
  - unfold Strategy.addPitStop.
    destruct (Z.leb_spec (totalLaps - 1) (Z.of_nat (List.length l))) as [Hfull | Hroom];
      [repeat split; assumption |].
    pose proof (laps_add_bound totalLaps l Hall Hroom) as Hnew.
    split; [rewrite length_app; cbn [List.length]; lia |].
    split; [apply Forall_app; split; [exact Hall | constructor; [exact Hnew | constructor]] |].
    apply ascending_snoc; [exact Hasc |]. cbn [Strategy.lap].
    destruct l as [| first rest]; [constructor |].
    pose proof (ascending_le_last first rest Hasc) as Hlast.
    cbn [Strategy.nextLap].
    rewrite Forall_forall in *. intros s Hs.
    specialize (Hlast s Hs). specialize (Hall s Hs). lia.
  - unfold Strategy.removePitStop.
    pose proof (filterIndex_length 0 index l).
    split; [lia |].
    split; [apply filterIndex_Forall; exact Hall | apply filterIndex_ascending; exact Hasc].
Qed.

Lemma run_from_invariant (totalLaps : Z) (actions : list Strategy.Action) :
  forall l,
    (Z.of_nat (List.length l) <= Z.max 0 (totalLaps - 1))%Z /\
    Forall (fun s => (1 <= Strategy.lap s <= totalLaps - 1)%Z) l /\
    lapsAscending l ->
    let l' := fold_left (Strategy.step totalLaps) actions l in
    (Z.of_nat (List.length l') <= Z.max 0 (totalLaps - 1))%Z /\
    Forall (fun s => (1 <= Strategy.lap s <= totalLaps - 1)%Z) l' /\
    lapsAscending l'.
Proof.
  induction actions as [| a actions IH]; intros l Hinv; cbn [fold_left].
  - exact Hinv.
  - apply IH. apply step_invariant. exact Hinv.
Qed.

(** X16: whatever is clicked, starting from no stops and with the lap count
    unchanged: there are never more than [totalLaps - 1] stops, every
    stop is on a lap from 1 to [totalLaps - 1], and the laps never
    decrease along the list. *)
Theorem pitStops_invariant (totalLaps : Z) (actions : list Strategy.Action) :
  let pitStops := Strategy.run totalLaps actions in
  (Z.of_nat (List.length pitStops) <= Z.max 0 (totalLaps - 1))%Z /\
  Forall (fun s => (1 <= Strategy.lap s <= totalLaps - 1)%Z) pitStops /\
  lapsAscending pitStops.
Proof.
  apply (run_from_invariant totalLaps actions []).
  split; [cbn; lia |]. split; constructor.
Qed.

(** The laps need not be distinct: with 5 laps, four clicks on the add
    button put two stops on lap 4. *)
Example pitStops_repeat_a_lap :
  map Strategy.lap
      (Strategy.run 5 [Strategy.Add; Strategy.Add; Strategy.Add; Strategy.Add])
  = [2; 3; 4; 4]%Z.
Proof. reflexivity. Qed.

(** ** Leaderboard *)

Lemma insert_perm (e : Leaderboard.Entry) (l : list Leaderboard.Entry) :
  Permutation (Leaderboard.insert e l) (e :: l).
Proof.
  induction l as [| f l IH]; cbn [Leaderboard.insert]; [reflexivity |].
  destruct (Rle_dec (Leaderboard.time e) (Leaderboard.time f)); [reflexivity |].
  rewrite IH. apply perm_swap.
Qed.

Lemma sort_perm (l : list Leaderboard.Entry) : Permutation (Leaderboard.sort l) l.
Proof.
  induction l as [| e l IH]; cbn; [reflexivity |].
  rewrite insert_perm. constructor. exact IH.
Qed.

Lemma insert_sorted (e : Leaderboard.Entry) (l : list Leaderboard.Entry) :
  StronglySorted timeLe l -> StronglySorted timeLe (Leaderboard.insert e l).
Proof.
  induction l as [| f l IH]; intros Hs; cbn [Leaderboard.insert].
  - constructor; constructor.
  - inversion Hs as [| ? ? Hl Hfl]; subst.
    destruct (Rle_dec (Leaderboard.time e) (Leaderboard.time f)) as [Hle | Hgt].
    + constructor; [exact Hs |].
      constructor; [exact Hle |].
      eapply Forall_impl; [| exact Hfl]. unfold timeLe. intros g Hg. lra.
    + constructor; [apply IH; exact Hl |].
      apply (Permutation_Forall (x := e :: l)); [symmetry; apply insert_perm |].
      constructor; [unfold timeLe; lra | exact Hfl].
Qed.

Lemma sort_sorted (l : list Leaderboard.Entry) :
  StronglySorted timeLe (Leaderboard.sort l).
Proof.
  induction l as [| e l IH]; cbn; [constructor | apply insert_sorted; exact IH].
Qed.

Lemma sorted_app_split (l1 l2 : list Leaderboard.Entry) :
  StronglySorted timeLe (l1 ++ l2) ->
  StronglySorted timeLe l1 /\
  forall a b, In a l1 -> In b l2 -> timeLe a b.
Proof.
  induction l1 as [| e l1 IH]; cbn [app]; intros Hs.
  - split; [constructor | intros a b []].
  - inversion Hs as [| ? ? Hrest He]; subst.
    destruct (IH Hrest) as [Hs1 Hcross].
    apply Forall_app in He as [He1 He2].
    split; [constructor; assumption |].
    intros a b [<- | Ha] Hb.
    + rewrite Forall_forall in He2. apply He2. exact Hb.
    + apply Hcross; assumption.
Qed.

(** X17: after a race the board holds at most 10 entries in ascending
    time; together with the entries it drops they are exactly the old
    board and the new entry, and no dropped entry is faster than a
    kept one. *)
Theorem leaderboard_update_keeps_fastest
        (leaderboard : list Leaderboard.Entry) (entry : Leaderboard.Entry) :
  let board := Leaderboard.update leaderboard entry in
  List.length board = Nat.min 10 (S (List.length leaderboard)) /\
  StronglySorted timeLe board /\
  exists dropped,
    Permutation (board ++ dropped) (leaderboard ++ [entry]) /\
    forall kept d, In kept board -> In d dropped -> timeLe kept d.
Proof.
  cbn zeta. unfold Leaderboard.update.
  set (sorted := Leaderboard.sort (leaderboard ++ [entry])).
  assert (Hperm : Permutation sorted (leaderboard ++ [entry])) by apply sort_perm.
  assert (Hsorted : StronglySorted timeLe sorted) by apply sort_sorted.
  rewrite <- (firstn_skipn 10 sorted) in Hsorted.
  destruct (sorted_app_split _ _ Hsorted) as [Hkept Hcross].
  split; [| split].
  - rewrite length_firstn, (Permutation_length Hperm), length_app.
    cbn [List.length]. lia.
  - exact Hkept.
  - exists (skipn 10 sorted). split; [| exact Hcross].
    rewrite firstn_skipn. exact Hperm.
Qed.

(** ** Race animation *)

Lemma sample_fraction (telemetryLength i : nat) :
  (i < telemetryLength)%nat -> 0 <= INR i / INR telemetryLength < 1.
Proof.
  intros Hi.
  assert (HT : 0 < INR telemetryLength) by (apply lt_0_INR; lia).
  assert (HI : 0 <= INR i) by apply pos_INR.
  assert (HIT : INR i < INR telemetryLength) by (apply lt_INR; exact Hi).
  split.
  - apply Rmult_le_pos; [exact HI | left; apply Rinv_0_lt_compat; exact HT].
  - apply (Rmult_lt_reg_r (INR telemetryLength)); [exact HT |].
    unfold Rdiv. rewrite Rmult_assoc, Rinv_l by lra. lra.
Qed.

Lemma progress_formula (dataLength lapIdx telemetryLength i : nat) :
  (0 < dataLength)%nat ->
  Animation.progress dataLength lapIdx telemetryLength i * INR dataLength
  = (INR lapIdx + INR i / INR telemetryLength) * 100.
Proof.
  intros HD. assert (0 < INR dataLength) by (apply lt_0_INR; exact HD).
  unfold Animation.progress, Rdiv.
  set (q := INR i * / INR telemetryLength).
  replace ((INR lapIdx + q) * / INR dataLength * 100 * INR dataLength)
    with ((INR lapIdx + q) * 100 * (/ INR dataLength * INR dataLength)) by ring.
  rewrite Rinv_l by lra. ring.
Qed.

(** X18: during the animation the progress stays in [[0, 100)] and grows
    strictly from each telemetry sample to the next and from each lap
    to the next, whatever the number of telemetry samples of each
    lap. *)
Theorem progress_bounded_increasing
        (telemetryLengths : list nat) (lapIdx i lapIdx' i' : nat) :
  (lapIdx' < List.length telemetryLengths)%nat ->
  (i < nth lapIdx telemetryLengths O)%nat ->
  (i' < nth lapIdx' telemetryLengths O)%nat ->
  (lapIdx < lapIdx')%nat \/ (lapIdx = lapIdx' /\ (i < i')%nat) ->
  0 <= Animation.progressAt telemetryLengths lapIdx i /\
  Animation.progressAt telemetryLengths lapIdx i
  < Animation.progressAt telemetryLengths lapIdx' i' /\
  Animation.progressAt telemetryLengths lapIdx' i' < 100.
Proof.
  intros HL' Hi Hi' Hlex. unfold Animation.progressAt.
  set (dataLength := List.length telemetryLengths) in *.
  set (T := nth lapIdx telemetryLengths O) in *.
  set (T' := nth lapIdx' telemetryLengths O) in *.
  assert (HD : 0 < INR dataLength) by (apply lt_0_INR; lia).
  pose proof (sample_fraction T i Hi) as Hq.
  pose proof (sample_fraction T' i' Hi') as Hq'.
  pose proof (progress_formula dataLength lapIdx T i ltac:(lia)) as Hp.
  pose proof (progress_formula dataLength lapIdx' T' i' ltac:(lia)) as Hp'.
  pose proof (pos_INR lapIdx) as HL0.
  assert (HLD : INR lapIdx' + 1 <= INR dataLength).
  { rewrite <- S_INR. apply le_INR. lia. }
  assert (Hlt : INR lapIdx + INR i / INR T < INR lapIdx' + INR i' / INR T').
  { destruct Hlex as [Hlap | [Heq Hsample]].
    - assert (INR lapIdx + 1 <= INR lapIdx') by (rewrite <- S_INR; apply le_INR; lia).
      lra.
    - subst lapIdx'. subst T'. fold T.
      assert (HT : 0 < INR T) by (apply lt_0_INR; lia).
      assert (INR i < INR i') by (apply lt_INR; exact Hsample).
      assert (INR i / INR T < INR i' / INR T).
      { unfold Rdiv. apply Rmult_lt_compat_r; [apply Rinv_0_lt_compat; exact HT | lra]. }
      lra. }
  set (p := Animation.progress dataLength lapIdx T i) in *.
  set (p' := Animation.progress dataLength lapIdx' T' i') in *.
  split; [| split].
  - apply (Rmult_le_reg_r (INR dataLength)); [exact HD |]. lra.
  - apply (Rmult_lt_reg_r (INR dataLength)); [exact HD |]. lra.
  - apply (Rmult_lt_reg_r (INR dataLength)); [exact HD |]. lra.
Qed.

Lemma progress_bounded_increasing_witness :
  0 <= Animation.progressAt [200; 150; 300]%nat 1 149 /\
  Animation.progressAt [200; 150; 300]%nat 1 149
  < Animation.progressAt [200; 150; 300]%nat 2 0 /\
  Animation.progressAt [200; 150; 300]%nat 2 0 < 100.
Proof.
  apply (progress_bounded_increasing [200; 150; 300]%nat 1 149 2 0); simpl; lia.
Defined.

Lemma floor_bounds (r : real) :
  IZR (Math.floor r) <= r < IZR (Math.floor r) + 1.
Proof.
  unfold Math.floor. destruct (base_Int_part r) as [Hlo Hhi]. lra.
Qed.

Lemma floor_ge (r : real) (k : Z) : IZR k <= r -> (k <= Math.floor r)%Z.
Proof.
  intros Hk. pose proof (floor_bounds r) as [_ Hhi].
  assert (H : IZR k < IZR (Math.floor r + 1)) by (rewrite plus_IZR; lra).
  apply lt_IZR in H. lia.
Qed.

Lemma floor_le (r : real) (k : Z) : r <= IZR k -> (Math.floor r <= k)%Z.
Proof.
  intros Hk. pose proof (floor_bounds r) as [Hlo _].
  apply le_IZR. lra.
Qed.

(** X19: for every non-negative progress the car is drawn on a sample of a
    non-empty curve, never outside it: on the first sample at
    progress 0 and on the last at progress 100 or more. *)
Theorem carPoint_in_bounds {A : Type} (smoothPoints : list A) (raceProgress : real) :
  smoothPoints <> [] -> 0 <= raceProgress ->
  let n := List.length smoothPoints in
  let index := Animation.carIndex n raceProgress in
  (0 <= index <= Z.of_nat n - 1)%Z /\
  (exists p, Animation.carPoint smoothPoints raceProgress = Some p /\
             nth_error smoothPoints (Z.to_nat index) = Some p) /\
  (raceProgress = 0 -> index = 0%Z) /\
  (100 <= raceProgress -> index = (Z.of_nat n - 1)%Z).
Proof.
  intros Hne Hp n index.
  assert (Hn : (1 <= n)%nat).
  { subst n. destruct smoothPoints; [contradiction | cbn; lia]. }
  assert (HnR : INR n - 1 = IZR (Z.of_nat n - 1)).
  { rewrite minus_IZR, <- INR_IZR_INZ. reflexivity. }
  assert (Hn0 : 0 <= INR n - 1).
  { rewrite HnR. apply IZR_le. lia. }
  assert (Hr : 0 <= raceProgress / 100 * (INR n - 1)).
  { apply Rmult_le_pos; [lra | exact Hn0]. }
  assert (Hfloor : (0 <= Math.floor (raceProgress / 100 * (INR n - 1)))%Z).
  { apply floor_ge. exact Hr. }
  assert (Hidx : (0 <= index <= Z.of_nat n - 1)%Z).
  { subst index. unfold Animation.carIndex. lia. }
  split; [exact Hidx |]. split; [| split].
  - unfold Animation.carPoint. fold n. fold index.
    destruct (Z.ltb_spec index 0) as [Hneg | _]; [lia |].
    destruct (nth_error smoothPoints (Z.to_nat index)) as [p |] eqn:Hnth.
    + exists p. split; reflexivity.
    + apply nth_error_None in Hnth. fold n in Hnth. lia.
  - intros ->. subst index. unfold Animation.carIndex.
    replace (0 / 100 * (INR n - 1)) with 0 by (unfold Rdiv; ring).
    assert (Math.floor 0 = 0%Z).
    { pose proof (floor_ge 0 0 ltac:(lra)). pose proof (floor_le 0 0 ltac:(lra)). lia. }
    lia.
  - intros H100. subst index. unfold Animation.carIndex.
    assert ((Z.of_nat n - 1 <= Math.floor (raceProgress / 100 * (INR n - 1)))%Z).
    { apply floor_ge. rewrite <- HnR. nra. }
    lia.
Qed.

Lemma carPoint_in_bounds_witness :
  let smoothPoints := [10%nat; 20%nat; 30%nat] in
  let index := Animation.carIndex 3 50 in
  (0 <= index <= Z.of_nat 3 - 1)%Z /\
  (exists p, Animation.carPoint smoothPoints 50 = Some p /\
             nth_error smoothPoints (Z.to_nat index) = Some p) /\
  (50 = 0 -> index = 0%Z) /\
  (100 <= 50 -> index = (Z.of_nat 3 - 1)%Z).
Proof.
  apply (carPoint_in_bounds [10%nat; 20%nat; 30%nat] 50).
  - discriminate.
  - lra.
Defined.

(** ** Speed colours *)

Lemma SplineEditor_speed_cases (points : list Point) (segments : nat) (closed : bool) :
  Forall (fun p => speedInCodeRange p \/ speed p = Some 0)
         (SplineEditor.getSplinePoints points segments closed).
Proof.
  assert (Hweak : forall l, Forall speedInCodeRange l ->
                            Forall (fun p => speedInCodeRange p \/ speed p = Some 0) l).
  { intros l H. eapply Forall_impl; [| exact H]. intros p Hp. left. exact Hp. }
  unfold SplineEditor.getSplinePoints.
  destruct (List.length points <? 2)%nat; [apply Hweak, withSpeed_one_inRange |].
  set (splinePoints := SplineEditor.withSpeeds _).
  assert (Hall : Forall sampleInRange splinePoints)
    by apply SplineEditor_withSpeeds_inRange.
  destruct closed; cbn [negb]; [apply Hweak, ofSample_inRange, Hall |].
  apply Forall_app. split; [apply Hweak, ofSample_inRange, Hall |].
  constructor; [| constructor]. cbn [speed].
  destruct splinePoints as [| s l] eqn:Hsp.
  - right. reflexivity.
  - destruct (lastSpeed_inRange (s :: l) ltac:(discriminate) Hall) as (v & Hv & Hr).
    rewrite Hv. unfold orZero.
    destruct (Req_dec_T v 0) as [_ | _]; [right; reflexivity |].
    left. exists v. split; [reflexivity | exact Hr].
Qed.

Lemma MixedEditor_speed_inRange (points : list Point) (segments : nat) (closed : bool) :
  Forall speedInCodeRange (MixedEditor.getSplinePoints points segments closed).
Proof.
  unfold MixedEditor.getSplinePoints.
  destruct (List.length points <? 2)%nat.
  - apply withSpeed_one_inRange.
  - apply ofSample_inRange, MixedEditor_withSpeeds_inRange.
Qed.

Lemma hue_of_speed (p : SplinePoint) :
  speedInCodeRange p \/ speed p = Some 0 -> (35 <= Animation.hue p <= 180)%Z.
Proof.
  unfold Animation.hue. intros [(v & Hv & Hr) | H0].
  - rewrite Hv. unfold minSpeed, double_0_8 in Hr.
    destruct (Req_dec_T v 0) as [-> | _]; [lra |].
    split; [apply floor_ge | apply floor_le]; lra.
  - rewrite H0. destruct (Req_dec_T 0 0) as [_ | Hne]; [| contradiction].
    split; [apply floor_ge | apply floor_le]; lra.
Qed.

Lemma hue_at_minSpeed (p : SplinePoint) :
  speed p = Some minSpeed -> Animation.hue p = 35%Z.
Proof.
  intros Hp. unfold Animation.hue. rewrite Hp.
  destruct (Req_dec_T minSpeed 0) as [H0 | _];
    [unfold minSpeed, double_0_8 in H0; lra |].
  pose proof (floor_ge (minSpeed * 180) 35) as Hge.
  pose proof (floor_bounds (minSpeed * 180)) as [Hlo _].
  assert (Hlt : IZR (Math.floor (minSpeed * 180)) < IZR 36)
    by (unfold minSpeed, double_0_8 in *; lra).
  apply lt_IZR in Hlt.
  assert (35 <= Math.floor (minSpeed * 180))%Z
    by (apply Hge; unfold minSpeed, double_0_8; lra).
  lia.
Qed.

(** X20: every point either generator returns is drawn with a hue from 35
    to 180: the speed line falls back to speed 1.0 where the generator
    left the speed 0, and a point at the least speed [1.0 - 0.8], which
    lies just below 0.2, is drawn with hue 35, not 36. *)
Theorem hue_range (points : list Point) (segments : nat) (closed : bool) :
  Forall (fun p => (35 <= Animation.hue p <= 180)%Z)
         (SplineEditor.getSplinePoints points segments closed) /\
  Forall (fun p => (35 <= Animation.hue p <= 180)%Z)
         (MixedEditor.getSplinePoints points segments closed) /\
  (forall p, speed p = Some minSpeed -> Animation.hue p = 35%Z).
Proof.
  split; [| split].
  - eapply Forall_impl; [| apply SplineEditor_speed_cases].
    intros p Hp. apply hue_of_speed. exact Hp.
  - eapply Forall_impl; [| apply MixedEditor_speed_inRange].
    intros p Hp. apply hue_of_speed. left. exact Hp.
  - exact hue_at_minSpeed.
Qed.

(** ** Fallback layout of a template *)

Lemma clamp_inBox (a b : real) :
  inBox (xy (Math.min 800 (Math.max 50 a)) (Math.min 500 (Math.max 50 b))).
Proof.
  unfold inBox, Math.min, Math.max, Rmin, Rmax. cbn [x y xy].
  destruct (Rle_dec 50 a), (Rle_dec 50 b);
    repeat match goal with |- context [Rle_dec ?u ?v] => destruct (Rle_dec u v) end;
    lra.
Qed.

Lemma walk_from (n : nat) (items : list (nat * Segment.t)) :
  forall w,
    Forall inBox (Template.w_points w) ->
    let w' := fold_left (Template.walkStep n) items w in
    Forall inBox (Template.w_points w') /\
    List.length (Template.w_points w')
    = (List.length (Template.w_points w) + List.length items)%nat.
Proof.
  induction items as [| [i seg] items IH]; intros w Hw; cbn zeta; cbn [fold_left].
  - split; [exact Hw | cbn; lia].
  - destruct (IH (Template.walkStep n w (i, seg))) as [Hbox Hlen].
    + cbn [Template.walkStep Template.w_points].
      apply Forall_app. split; [exact Hw |].
      constructor; [apply clamp_inBox | constructor].
    + split; [exact Hbox |]. rewrite Hlen.
      cbn [Template.walkStep Template.w_points List.length].
      rewrite length_app. cbn [List.length]. lia.
Qed.

Lemma walked_shape (segments : list Segment.t) :
  Forall inBox (Template.walked segments) /\
  List.length (Template.walked segments) = List.length segments.
Proof.
  unfold Template.walked.
  destruct (walk_from (List.length segments)
              (combine (seq 0 (List.length segments)) segments)
              (Template.mkWalk 200 200 [])) as [Hbox Hlen]; [constructor |].
  split; [exact Hbox |]. rewrite Hlen, length_combine, length_seq.
  cbn [Template.w_points List.length]. lia.
Qed.

(** X21: the fallback layout has one point per segment and one more, all
    inside the drawing area; its last point is its first, so with two
    segments or more every closure check of the editors accepts it. *)
Theorem fallbackLayout_closed (first : Segment.t) (rest : list Segment.t) :
  let layout := Template.fallbackLayout first rest in
  List.length layout = S (S (List.length rest)) /\
  Forall inBox layout /\
  at_ layout (List.length layout - 1) = at_ layout 0 /\
  (rest <> [] ->
   App.checkCircuitComplete (Planar layout) = true /\
   CircuitEditor.isLoopClosed layout = true /\
   CircuitEditor.isLoopClosedSnap layout = true).
Proof.
  cbn zeta. unfold Template.fallbackLayout.
  destruct (walked_shape (first :: rest)) as [Hbox Hlen].
  set (points := Template.walked (first :: rest)) in *.
  cbn [List.length] in Hlen.
  destruct points as [| p0 points'] eqn:Hpoints; [discriminate Hlen |].
  assert (Hlayout : List.length ((p0 :: points') ++ [at_ (p0 :: points') 0])
                    = S (S (List.length rest))).
  { rewrite length_app, Hlen. cbn [List.length]. lia. }
  assert (Hlast : at_ ((p0 :: points') ++ [at_ (p0 :: points') 0])
                      (List.length ((p0 :: points') ++ [at_ (p0 :: points') 0]) - 1)
                  = at_ ((p0 :: points') ++ [at_ (p0 :: points') 0]) 0).
  { unfold at_ at 1. rewrite length_app. cbn [List.length].
    rewrite app_nth2 by (cbn [List.length]; lia).
    replace (S (List.length points') + 1 - 1 - List.length (p0 :: points'))%nat
      with 0%nat by (cbn [List.length]; lia).
    reflexivity. }
  split; [exact Hlayout |].
  split; [apply Forall_app; split; [exact Hbox |];
          constructor; [| constructor];
          inversion Hbox; subst; assumption |].
  split; [exact Hlast |].
  intros Hrest.
  assert (Hclosed : forall tolerance, 0 < tolerance ->
            CircuitEditor.isLoopClosedWithin tolerance
              ((p0 :: points') ++ [at_ (p0 :: points') 0]) = true).
  { intros tolerance Htol. unfold CircuitEditor.isLoopClosedWithin.
    rewrite Hlayout, Hlast in *.
    destruct rest as [| second rest']; [contradiction |].
    cbn [List.length Nat.ltb Nat.leb].
    replace (x _ - x _) with 0 by ring. replace (y _ - y _) with 0 by ring.
    rewrite hypot_0_r by lra.
    destruct (Rlt_dec 0 tolerance); [reflexivity | contradiction]. }
  split; [| split].
  - unfold App.checkCircuitComplete.
    pose proof (Hclosed 30 ltac:(lra)) as H. unfold CircuitEditor.isLoopClosedWithin in H.
    exact H.
  - apply Hclosed. lra.
  - apply Hclosed. lra.
Qed.

(** ** Validation panel *)

(** X14: the panel shows nothing below 3 points.  From 3 points on, the
    length it shows is the summed length of the segments
    [buildSegments] makes of the same circuit; a planar circuit is
    reported valid without being validated, a geodetic one gets the
    validator's report on its projected points. *)
Theorem panel_length_matches_segments (points : Circuit) (isComplete : bool) :
  match ValidationPanel.compute points isComplete with
  | None => (App.circuitLength points < 3)%nat
  | Some (totalLength, validation) =>
      (3 <= App.circuitLength points)%nat /\
      totalLength = sumLengths (App.buildSegments points) /\
      validation
      = match points with
        | Planar _ => ValidationPanel.mkValidation true [] None
        | Geodetic _ =>
            ValidationPanel.ofReport
              (GeometryEngine.validateGeometry (App.meterPoints points) isComplete)
        end
  end.
Proof.
  unfold ValidationPanel.compute.
  destruct (Nat.ltb_spec (App.circuitLength points) 3) as [Hlt | Hge]; [exact Hlt |].
  rewrite sumLengths_buildSegments.
  destruct points as [pts | pts]; split; try exact Hge; split; reflexivity.
Qed.

(** ** Shape of the spline output *)

Lemma flat_map_length_const {A B : Type} (f : A -> list B) (m : nat) (l : list A) :
  (forall a, List.length (f a) = m) ->
  List.length (flat_map f l) = (List.length l * m)%nat.
Proof.
  intros Hf. induction l as [| a l IH]; cbn [flat_map List.length]; [reflexivity |].
  rewrite length_app, Hf, IH. lia.
Qed.

Lemma flat_map_nth_const {A B : Type} (f : A -> list B) (m : nat) (l : list A)
      (k t : nat) (a : A) :
  (forall a, List.length (f a) = m) ->
  nth_error l k = Some a -> (t < m)%nat ->
  nth_error (flat_map f l) (k * m + t) = nth_error (f a) t.
Proof.
  intros Hf. revert k. induction l as [| b l IH]; intros k Hk Ht.
  - destruct k; discriminate Hk.
  - cbn [flat_map]. destruct k as [| k'].
    + cbn in Hk. injection Hk as ->. cbn [Nat.mul Nat.add].
      apply nth_error_app1. rewrite Hf. exact Ht.
    + cbn in Hk. rewrite nth_error_app2 by (rewrite Hf; lia).
      rewrite Hf. replace (S k' * m + t - m)%nat with (k' * m + t)%nat by lia.
      apply IH; assumption.
Qed.

Lemma span_length (pts : list Point) (segments i : nat) :
  List.length (SplineEditor.span pts segments i) = segments.
Proof. unfold SplineEditor.span. rewrite length_map, length_seq. reflexivity. Qed.

Lemma sampled_length (pts : list Point) (segments : nat) :
  List.length (SplineEditor.sampled pts segments)
  = ((List.length pts - 3) * segments)%nat.
Proof.
  unfold SplineEditor.sampled.
  rewrite (flat_map_length_const _ segments) by (intros i; apply span_length).
  rewrite length_seq. reflexivity.
Qed.

Lemma padded_length (points : list Point) (closed : bool) :
  List.length (SplineEditor.padded points closed)
  = (List.length points + if closed then 4 else 2)%nat.
Proof.
  unfold SplineEditor.padded. destruct closed;
    rewrite !length_app; cbn [List.length]; lia.
Qed.

Lemma withSpeeds_length (splinePoints : list Sample) :
  List.length (SplineEditor.withSpeeds splinePoints) = List.length splinePoints.
Proof. unfold SplineEditor.withSpeeds. rewrite length_map, length_seq. reflexivity. Qed.

(** X22: the all-spline generator returns the points themselves below 2
    points; otherwise [segments] samples per span and the end point
    for an open path of [n] points ([n - 1] spans), and [segments]
    samples for each of [n + 1] spans for a closed one. *)
Theorem getSplinePoints_length (points : list Point) (segments : nat) (closed : bool) :
  let n := List.length points in
  List.length (SplineEditor.getSplinePoints points segments closed)
  = if (n <? 2)%nat then n
    else if closed then ((n + 1) * segments)%nat
         else ((n - 1) * segments + 1)%nat.
Proof.
  cbn zeta. unfold SplineEditor.getSplinePoints.
  destruct (Nat.ltb_spec (List.length points) 2) as [Hlt | Hge];
    [apply length_map |].
  destruct closed; cbn [negb].
  - rewrite length_map, withSpeeds_length, sampled_length, padded_length.
    f_equal. lia.
  - rewrite length_app, length_map, withSpeeds_length, sampled_length, padded_length.
    cbn [List.length]. f_equal. f_equal. lia.
Qed.

Lemma withSpeeds_nth (splinePoints : list Sample) (i : nat) (s : Sample) :
  nth_error splinePoints i = Some s ->
  nth_error (SplineEditor.withSpeeds splinePoints) i
  = Some (setSpeed s (Spline.speedOf splinePoints i)).
Proof.
  intros Hs. unfold SplineEditor.withSpeeds.
  assert (Hi : (i < List.length splinePoints)%nat)
    by (apply nth_error_Some; rewrite Hs; discriminate).
  rewrite nth_error_map, nth_error_nth' with (d := O) by (rewrite length_seq; exact Hi).
  rewrite seq_nth by exact Hi. cbn [option_map Nat.add].
  unfold sampleAt. rewrite (nth_error_nth _ _ _ Hs). reflexivity.
Qed.

Lemma sampled_nth (pts : list Point) (segments k t : nat) :
  (k < List.length pts - 3)%nat -> (t < segments)%nat ->
  nth_error (SplineEditor.sampled pts segments) (k * segments + t)
  = Some (Spline.catmullRom (at_ pts k) (at_ pts (k + 1)) (at_ pts (k + 2))
                            (at_ pts (k + 3)) segments t).
Proof.
  intros Hk Ht. unfold SplineEditor.sampled.
  rewrite (flat_map_nth_const _ segments _ k t (S k))
    by (try (intros i; apply span_length); try exact Ht;
        rewrite nth_error_nth' with (d := O) by (rewrite length_seq; exact Hk);
        rewrite seq_nth by exact Hk; reflexivity).
  unfold SplineEditor.span.
  rewrite nth_error_map, nth_error_nth' with (d := O) by (rewrite length_seq; exact Ht).
  rewrite seq_nth by exact Ht. cbn [option_map Nat.add].
  f_equal. f_equal; unfold at_; f_equal; lia.
Qed.

Lemma catmullRom_start (p0 p1 p2 p3 : Point) (segments : nat) :
  s_x (Spline.catmullRom p0 p1 p2 p3 segments 0) = x p1 /\
  s_y (Spline.catmullRom p0 p1 p2 p3 segments 0) = y p1.
Proof.
  unfold Spline.catmullRom. cbn [s_x s_y INR].
  unfold Rdiv. rewrite Rmult_0_l. split; lra.
Qed.

Lemma output_nth (splinePoints : list Sample) (i : nat) (s : Sample) :
  nth_error splinePoints i = Some s ->
  nth_error (map ofSample (SplineEditor.withSpeeds splinePoints)) i
  = Some (ofSample (setSpeed s (Spline.speedOf splinePoints i))).
Proof.
  intros Hs. rewrite nth_error_map, (withSpeeds_nth _ _ _ Hs). reflexivity.
Qed.

Lemma padded_open_at (points : list Point) (k : nat) :
  (k < List.length points)%nat ->
  at_ (SplineEditor.padded points false) (k + 1) = at_ points k.
Proof.
  intros Hk. unfold SplineEditor.padded, at_. cbn [app].
  replace (k + 1)%nat with (S k) by lia. cbn [nth].
  apply app_nth1. exact Hk.
Qed.

(** X23: on an open path of at least 2 points the curve of the all-spline
    generator goes through every control point: sample number
    [k * segments] lies on point [k], and the last returned point is
    the last control point itself. *)
Theorem open_spline_interpolates (points : list Point) (segments : nat) :
  (2 <= List.length points)%nat -> segments <> 0%nat ->
  let n := List.length points in
  let out := SplineEditor.getSplinePoints points segments false in
  (forall k, (k < n - 1)%nat ->
     exists sp, nth_error out (k * segments) = Some sp /\
                point sp = xy (x (at_ points k)) (y (at_ points k))) /\
  exists sp, nth_error out ((n - 1) * segments) = Some sp /\
             point sp = at_ points (n - 1).
Proof.
  intros Hn Hseg n out. subst n out. unfold SplineEditor.getSplinePoints.
  replace (List.length points <? 2)%nat with false
    by (symmetry; apply Nat.ltb_ge; exact Hn).
  cbn [negb].
  set (pts := SplineEditor.padded points false).
  assert (Hpts : (List.length pts - 3 = List.length points - 1)%nat).
  { subst pts. rewrite padded_length. lia. }
  assert (Hlen : List.length (map ofSample
                   (SplineEditor.withSpeeds (SplineEditor.sampled pts segments)))
                 = ((List.length points - 1) * segments)%nat).
  { rewrite length_map, withSpeeds_length, sampled_length, Hpts. reflexivity. }
  split.
  - intros k Hk.
    assert (Hidx : (k * segments < (List.length points - 1) * segments)%nat).
    { apply Nat.mul_lt_mono_pos_r; lia. }
    rewrite nth_error_app1 by (rewrite Hlen; exact Hidx).
    pose proof (sampled_nth pts segments k 0 ltac:(lia) ltac:(lia)) as Hs.
    rewrite Nat.add_0_r in Hs.
    rewrite (output_nth _ _ _ Hs).
    eexists. split; [reflexivity |].
    unfold ofSample, setSpeed. cbn [point s_x s_y].
    destruct (catmullRom_start (at_ pts k) (at_ pts (k + 1)) (at_ pts (k + 2))
                               (at_ pts (k + 3)) segments) as [Hx Hy].
    rewrite Hx, Hy. subst pts. rewrite padded_open_at by lia. reflexivity.
  - rewrite nth_error_app2 by (rewrite Hlen; lia).
    rewrite Hlen, Nat.sub_diag. cbn [nth_error].
    eexists. split; reflexivity.
Qed.

Lemma open_spline_interpolates_witness :
  let points := [xy 0 0; xy 100 0; xy 100 100] in
  let out := SplineEditor.getSplinePoints points 4 false in
  (forall k, (k < 3 - 1)%nat ->
     exists sp, nth_error out (k * 4) = Some sp /\
                point sp = xy (x (at_ points k)) (y (at_ points k))) /\
  exists sp, nth_error out ((3 - 1) * 4) = Some sp /\
             point sp = at_ points (3 - 1).
Proof.
  apply (open_spline_interpolates [xy 0 0; xy 100 0; xy 100 100] 4).
  - simpl. lia.
  - discriminate.
Defined.

Lemma padded_closed_at (points : list Point) (j : nat) :
  (2 <= List.length points)%nat -> (j < List.length points + 4)%nat ->
  at_ (SplineEditor.padded points true) j
  = let n := List.length points in
    if (j <? 2)%nat then at_ points (n - 2 + j)
    else if (j <? n + 2)%nat then at_ points (j - 2)
         else at_ points (j - (n + 2)).
Proof.
  intros Hn Hj. cbn zeta. unfold SplineEditor.padded.
  destruct (Nat.ltb_spec j 2) as [H2 | H2].
  - destruct j as [| [| j']]; try lia; unfold at_; cbn [app nth]; f_equal; lia.
  - destruct j as [| [| j']]; try lia.
    unfold at_ at 1. cbn [app nth].
    destruct (Nat.ltb_spec (S (S j')) (List.length points + 2)) as [Hin | Hout].
    + rewrite app_nth1 by lia. unfold at_. f_equal. lia.
    + rewrite app_nth2 by lia.
      replace (S (S j') - (List.length points + 2))%nat
        with (j' - List.length points)%nat by lia.
      destruct (j' - List.length points)%nat as [| [| m]] eqn:Hm; cbn [nth].
      * reflexivity.
      * reflexivity.
      * lia.
Qed.

(** X24: on a closed path of [n] points the curve of the all-spline
    generator starts on the last control point, and its span from the
    last point to the first is sampled twice: samples
    [n * segments + t] repeat samples [t], position, tangent and
    angle. *)
Theorem closed_spline_repeats_seam (points : list Point) (segments t : nat) :
  (2 <= List.length points)%nat -> (t < segments)%nat ->
  let n := List.length points in
  let out := SplineEditor.getSplinePoints points segments true in
  exists a b,
    nth_error out t = Some a /\
    nth_error out (n * segments + t) = Some b /\
    point a = point b /\ dx a = dx b /\ dy a = dy b /\ angle a = angle b /\
    (t = 0%nat ->
     point a = xy (x (at_ points (n - 1))) (y (at_ points (n - 1)))).
Proof.
  intros Hn Ht n out. subst n out. unfold SplineEditor.getSplinePoints.
  replace (List.length points <? 2)%nat with false
    by (symmetry; apply Nat.ltb_ge; exact Hn).
  cbn [negb].
  set (pts := SplineEditor.padded points true).
  set (n := List.length points) in *.
  assert (Hpts : (List.length pts - 3 = n + 1)%nat).
  { subst pts. rewrite padded_length. lia. }
  pose proof (sampled_nth pts segments 0 t ltac:(lia) Ht) as H0.
  pose proof (sampled_nth pts segments n t ltac:(lia) Ht) as Hlast.
  cbn [Nat.mul Nat.add] in H0.
  rewrite (output_nth _ _ _ H0), (output_nth _ _ _ Hlast).
  assert (Hsame : Spline.catmullRom (at_ pts n) (at_ pts (n + 1)) (at_ pts (n + 2))
                                    (at_ pts (n + 3)) segments t
                  = Spline.catmullRom (at_ pts 0) (at_ pts 1) (at_ pts 2)
                                      (at_ pts 3) segments t).
  { subst pts. rewrite !padded_closed_at by (try exact Hn; fold n; lia). cbn zeta. fold n.
    repeat match goal with
           | |- context [(?a <? ?b)%nat] =>
               destruct (Nat.ltb_spec a b); try lia
           end.
    f_equal; unfold at_; f_equal; lia. }
  rewrite Hsame.
  eexists. eexists. split; [reflexivity |]. split; [reflexivity |].
  unfold ofSample, setSpeed. cbn [point dx dy angle s_x s_y s_dx s_dy s_angle].
  repeat (split; [reflexivity |]).
  intros ->.
  destruct (catmullRom_start (at_ pts 0) (at_ pts 1) (at_ pts 2) (at_ pts 3) segments)
    as [Hx Hy].
  rewrite Hx, Hy. subst pts. rewrite padded_closed_at by (try exact Hn; fold n; lia).
  cbn [Nat.ltb Nat.leb]. fold n.
  replace (n - 2 + 1)%nat with (n - 1)%nat by lia. reflexivity.
Qed.

Lemma closed_spline_repeats_seam_witness :
  let points := [xy 0 0; xy 100 0; xy 100 100] in
  let out := SplineEditor.getSplinePoints points 4 true in
  exists a b,
    nth_error out 1 = Some a /\
    nth_error out (3 * 4 + 1) = Some b /\
    point a = point b /\ dx a = dx b /\ dy a = dy b /\ angle a = angle b /\
    (1%nat = 0%nat ->
     point a = xy (x (at_ points (3 - 1))) (y (at_ points (3 - 1)))).
Proof.
  apply (closed_spline_repeats_seam [xy 0 0; xy 100 0; xy 100 100] 4 1).
  - simpl. lia.
  - lia.
Defined.

(** ** The spline basis *)

Lemma catmullRom_blend (p0 p1 p2 p3 : Point) (segments t : nat) :
  let st := INR t / INR segments in
  let s := Spline.catmullRom p0 p1 p2 p3 segments t in
  s_x s = blend (x p0) (x p1) (x p2) (x p3) st /\
  s_y s = blend (y p0) (y p1) (y p2) (y p3) st /\
  s_dx s = blendTangent (x p0) (x p1) (x p2) (x p3) st /\
  s_dy s = blendTangent (y p0) (y p1) (y p2) (y p3) st.
Proof. cbn zeta. repeat split; reflexivity. Qed.

Lemma cubic_derivative (a3 a2 a1 a0 t : real) :
  derivable_pt_lim (fun s => a3 * s ^ 3 + a2 * s ^ 2 + a1 * s + a0) t
                   (3 * a3 * t ^ 2 + 2 * a2 * t + a1).
Proof.
  apply (derivable_pt_lim_ext
           (mult_real_fct a3 (fun y => y ^ 3) + mult_real_fct a2 (fun y => y ^ 2)
            + mult_real_fct a1 id + fct_cte a0)%F).
  - intros z. unfold plus_fct, mult_real_fct, id, fct_cte. ring.
  - replace (3 * a3 * t ^ 2 + 2 * a2 * t + a1)
      with (a3 * (INR 3 * t ^ pred 3) + a2 * (INR 2 * t ^ pred 2) + a1 * 1 + 0)
      by (simpl; ring).
    repeat apply derivable_pt_lim_plus;
      try apply derivable_pt_lim_scal;
      try apply derivable_pt_lim_pow;
      try apply derivable_pt_lim_id;
      apply derivable_pt_lim_const.
Qed.

(** X25: the tangent stored with a sample is the derivative, in the curve
    parameter, of the position the same loop computes. *)
Theorem spline_tangent_is_derivative (p0 p1 p2 p3 : Point) (segments t : nat) :
  let st := INR t / INR segments in
  let s := Spline.catmullRom p0 p1 p2 p3 segments t in
  (s_x s = blend (x p0) (x p1) (x p2) (x p3) st /\
   derivable_pt_lim (blend (x p0) (x p1) (x p2) (x p3)) st (s_dx s)) /\
  (s_y s = blend (y p0) (y p1) (y p2) (y p3) st /\
   derivable_pt_lim (blend (y p0) (y p1) (y p2) (y p3)) st (s_dy s)).
Proof.
  cbn zeta.
  assert (Hd : forall c0 c1 c2 c3 st,
             derivable_pt_lim (blend c0 c1 c2 c3) st (blendTangent c0 c1 c2 c3 st)).
  { intros c0 c1 c2 c3 st.
    apply (derivable_pt_lim_ext
             (fun s => (0.5 * (- c0 + 3 * c1 - 3 * c2 + c3)) * s ^ 3
                       + (0.5 * (2 * c0 - 5 * c1 + 4 * c2)) * s ^ 2
                       + (0.5 * (- c0 + c2 - c3)) * s + c1)).
    - intros z. cbv beta. unfold blend. cbn zeta. lra.
    - replace (blendTangent c0 c1 c2 c3 st)
        with (3 * (0.5 * (- c0 + 3 * c1 - 3 * c2 + c3)) * st ^ 2
              + 2 * (0.5 * (2 * c0 - 5 * c1 + 4 * c2)) * st
              + 0.5 * (- c0 + c2 - c3))
        by (unfold blendTangent; cbn zeta; lra).
      apply cubic_derivative. }
  destruct (catmullRom_blend p0 p1 p2 p3 segments t) as (Hx & Hy & Hdx & Hdy).
  cbn zeta in Hx, Hy, Hdx, Hdy.
  split; (split; [assumption |]).
  - rewrite Hdx. apply Hd.
  - rewrite Hdy. apply Hd.
Qed.

(** X26: the four weights of a sample add up to [2 + st^2 - st], not to 2:
    moving the four control points by an offset moves the sample by
    the offset times [1 + (st^2 - st) / 2], the whole offset only at
    [st = 0], and adds the offset times [st - 1/2] to its tangent. *)
Theorem spline_translation_drift (a b : real) (p0 p1 p2 p3 : Point) (segments t : nat) :
  let st := INR t / INR segments in
  let s := Spline.catmullRom p0 p1 p2 p3 segments t in
  let s' := Spline.catmullRom (translate a b p0) (translate a b p1)
                              (translate a b p2) (translate a b p3) segments t in
  s_x s' = s_x s + a * (1 + (st * st - st) / 2) /\
  s_y s' = s_y s + b * (1 + (st * st - st) / 2) /\
  s_dx s' = s_dx s + a * (st - 1 / 2) /\
  s_dy s' = s_dy s + b * (st - 1 / 2).
Proof.
  cbn zeta. unfold Spline.catmullRom, translate. cbn [s_x s_y s_dx s_dy x y].
  repeat split; lra.
Qed.

(** ** Straight spans of the mixed generator *)

Lemma map_sampleAt_seq (l : list Sample) :
  map (sampleAt l) (seq 0 (List.length l)) = l.
Proof.
  induction l as [| s l IH]; [reflexivity |].
  cbn [List.length seq map]. f_equal.
  rewrite <- seq_shift, map_map. exact IH.
Qed.

Lemma MixedEditor_withSpeeds_keep (l : list Sample) :
  Forall (fun s => s_speed s = Some 1.0) l -> MixedEditor.withSpeeds l = l.
Proof.
  intros Hall. unfold MixedEditor.withSpeeds.
  rewrite <- (map_sampleAt_seq l) at 3.
  apply map_ext_in. intros i Hi. apply in_seq in Hi.
  unfold MixedEditor.speedAt.
  rewrite Forall_forall in Hall.
  rewrite (Hall (sampleAt l i)) by (unfold sampleAt; apply nth_In; lia).
  destruct (Req_dec_T 1.0 1.0) as [_ | Hne]; [reflexivity | contradiction].
Qed.

Lemma linear_onStraight (p1 p2 : Point) (steps : Z) (t : nat) :
  (5 <= steps)%Z -> (t <= Z.to_nat steps)%nat ->
  speed (ofSample (MixedEditor.linear p1 p2 steps t)) = Some 1.0 /\
  onStraight p1 p2 (ofSample (MixedEditor.linear p1 p2 steps t)).
Proof.
  intros Hsteps Ht. split; [reflexivity |].
  unfold onStraight, ofSample, MixedEditor.linear.
  cbn [point dx dy s_x s_y s_dx s_dy x y xy].
  split; [| split; reflexivity].
  exists (INR t / IZR steps). split; [| split; reflexivity].
  assert (Hs : 0 < IZR steps) by (apply IZR_lt; lia).
  assert (H0 : 0 <= INR t) by apply pos_INR.
  assert (Hle : INR t <= IZR steps).
  { rewrite <- (Z2Nat.id steps) at 1 by lia.
    rewrite <- INR_IZR_INZ. apply le_INR. exact Ht. }
  split.
  - apply Rmult_le_pos; [exact H0 | left; apply Rinv_0_lt_compat; exact Hs].
  - apply (Rmult_le_reg_r (IZR steps)); [exact Hs |].
    unfold Rdiv. rewrite Rmult_assoc, Rinv_l by lra. lra.
Qed.

Lemma straight_span_samples (loopPoints : list Point) (segments : nat)
      (closed : bool) (i : nat) (s : Sample) :
  MixedEditor.isStraight (at_ loopPoints i) = true ->
  In s (MixedEditor.span loopPoints segments closed i) ->
  speed (ofSample s) = Some 1.0 /\
  s_speed s = Some 1.0 /\
  onStraight (at_ loopPoints i) (at_ loopPoints (i + 1)) (ofSample s).
Proof.
  intros Hstraight Hin. unfold MixedEditor.span in Hin. rewrite Hstraight in Hin.
  apply in_flat_map in Hin as (t & Ht & Hs). apply in_seq in Ht.
  destruct ((0 <? t)%nat || (i =? 0)%nat); [| contradiction].
  destruct Hs as [<- | []].
  set (steps := Z.max 5 _).
  destruct (linear_onStraight (at_ loopPoints i) (at_ loopPoints (i + 1)) steps t)
    as [Hspeed Hon]; [lia | lia |].
  split; [exact Hspeed |]. split; [reflexivity | exact Hon].
Qed.

(** X27: when every control point is tagged ['straight'] the mixed
    generator draws the polyline itself: every returned point has
    speed 1.0, lies on the line between two consecutive points of the
    loop, and carries the direction of that line as its tangent. *)
Theorem mixed_straight_is_polyline (points : list Point) (segments : nat)
        (closed : bool) :
  (2 <= List.length points)%nat ->
  (forall p, In p points -> MixedEditor.isStraight p = true) ->
  let loopPoints := if closed then points ++ [at_ points 0] else points in
  Forall (fun sp =>
            speed sp = Some 1.0 /\
            exists i, (i < List.length loopPoints - 1)%nat /\
                      onStraight (at_ loopPoints i) (at_ loopPoints (i + 1)) sp)
         (MixedEditor.getSplinePoints points segments closed).
Proof.
  intros Hn Hall loopPoints. unfold MixedEditor.getSplinePoints.
  replace (List.length points <? 2)%nat with false
    by (symmetry; apply Nat.ltb_ge; exact Hn).
  fold loopPoints.
  set (splinePoints := flat_map _ _).
  assert (Hloop : forall i, (i < List.length loopPoints - 1)%nat ->
                            MixedEditor.isStraight (at_ loopPoints i) = true).
  { intros i Hi. apply Hall. subst loopPoints. destruct closed.
    - rewrite length_app in Hi. cbn [List.length] in Hi.
      unfold at_. rewrite app_nth1 by lia. apply nth_In. lia.
    - unfold at_. apply nth_In. lia. }
  assert (Hsamples : Forall (fun s =>
            s_speed s = Some 1.0 /\
            speed (ofSample s) = Some 1.0 /\
            exists i, (i < List.length loopPoints - 1)%nat /\
                      onStraight (at_ loopPoints i) (at_ loopPoints (i + 1))
                                 (ofSample s)) splinePoints).
  { apply Forall_forall. intros s Hs. subst splinePoints.
    apply in_flat_map in Hs as (i & Hi & Hin). apply in_seq in Hi.
    destruct (straight_span_samples loopPoints segments closed i s
                (Hloop i ltac:(lia)) Hin) as (H1 & H2 & H3).
    split; [exact H2 |]. split; [exact H1 |]. exists i. split; [lia | exact H3]. }
  rewrite MixedEditor_withSpeeds_keep
    by (eapply Forall_impl; [| exact Hsamples]; intros s Hs; apply Hs).
  apply Forall_map. eapply Forall_impl; [| exact Hsamples].
  intros s (_ & Hspeed & Hon). split; assumption.
Qed.

Lemma mixed_straight_is_polyline_witness :
  let points := [mkPoint 0 0 (Some "straight"%string);
                 mkPoint 300 0 (Some "straight"%string);
                 mkPoint 300 400 (Some "straight"%string)] in
  let loopPoints := points ++ [at_ points 0] in
  Forall (fun sp =>
            speed sp = Some 1.0 /\
            exists i, (i < List.length loopPoints - 1)%nat /\
                      onStraight (at_ loopPoints i) (at_ loopPoints (i + 1)) sp)
         (MixedEditor.getSplinePoints points 24 true).
Proof.
  apply (mixed_straight_is_polyline
           [mkPoint 0 0 (Some "straight"%string);
            mkPoint 300 0 (Some "straight"%string);
            mkPoint 300 400 (Some "straight"%string)] 24 true).
  - simpl. lia.
  - intros p [<- | [<- | [<- | []]]]; reflexivity.
Defined.

(** ** The canvas editor *)

Lemma snap_bounds (v : real) :
  (exists k : Z, CanvasEditor.snap v = IZR k * CanvasEditor.SNAP_GRID) /\
  v - CanvasEditor.SNAP_GRID / 2 < CanvasEditor.snap v <= v + CanvasEditor.SNAP_GRID / 2.
Proof.
  unfold CanvasEditor.snap, CanvasEditor.round, CanvasEditor.SNAP_GRID.
  split; [eexists; reflexivity |].
  pose proof (floor_bounds (v / 24 + 0.5)) as [Hlo Hhi]. lra.
Qed.

(** X28: a snapped coordinate is a whole number of grid cells and within
    half a cell of the mouse coordinate; a coordinate already on the
    grid snaps to itself. *)
Theorem snap_near (v : real) :
  (exists k : Z, CanvasEditor.snap v = IZR k * CanvasEditor.SNAP_GRID) /\
  v - CanvasEditor.SNAP_GRID / 2 < CanvasEditor.snap v <= v + CanvasEditor.SNAP_GRID / 2 /\
  forall k : Z, CanvasEditor.snap (IZR k * CanvasEditor.SNAP_GRID)
                = IZR k * CanvasEditor.SNAP_GRID.
Proof.
  destruct (snap_bounds v) as [Hk Hnear].
  split; [exact Hk |]. split; [exact Hnear |].
  intros k. unfold CanvasEditor.snap, CanvasEditor.round, CanvasEditor.SNAP_GRID.
  replace (IZR k * 24 / 24 + 0.5) with (IZR k + 0.5) by lra.
  assert (Hfloor : Math.floor (IZR k + 0.5) = k).
  { pose proof (floor_ge (IZR k + 0.5) k ltac:(lra)) as Hge.
    assert (Hle : (Math.floor (IZR k + 0.5) <= k)%Z).
    { pose proof (floor_bounds (IZR k + 0.5)) as [Hlo _].
      assert (H : IZR (Math.floor (IZR k + 0.5)) < IZR (k + 1))
        by (rewrite plus_IZR; lra).
      apply lt_IZR in H. lia. }
    lia. }
  rewrite Hfloor. reflexivity.
Qed.

Lemma findIndexFrom_range (i : nat) (points : list Point) (mx my : real) (hit : nat) :
  CanvasEditor.findIndexFrom i points mx my = Some hit ->
  (i <= hit < i + List.length points)%nat.
Proof.
  revert i. induction points as [| p rest IH]; intros i; cbn [CanvasEditor.findIndexFrom].
  - discriminate.
  - destruct (Rlt_dec _ 15).
    + intros [= <-]. cbn [List.length]. lia.
    + intros H. apply IH in H. cbn [List.length]. lia.
Qed.

Lemma assign_inside (points : list Point) (i : nat) (p : Point) :
  (i < List.length points)%nat ->
  exists newPoints,
    CanvasEditor.assign points i p = Some newPoints /\
    List.length newPoints = List.length points /\
    (forall q, In q newPoints -> q = p \/ In q points).
Proof.
  intros Hi. unfold CanvasEditor.assign.
  replace (i <? List.length points)%nat with true by (symmetry; apply Nat.ltb_lt; exact Hi).
  eexists. split; [reflexivity |]. split.
  - rewrite length_app. cbn [List.length].
    rewrite length_firstn, length_skipn. lia.
  - intros q Hq. apply in_app_iff in Hq as [Hq | [<- | Hq]].
    + right. rewrite <- (firstn_skipn i points). apply in_or_app. left. exact Hq.
    + left. reflexivity.
    + right. rewrite <- (firstn_skipn (S i) points). apply in_or_app. right. exact Hq.
Qed.

Lemma snapped_onGrid (mx my : real) :
  onGrid (xy (CanvasEditor.snap mx) (CanvasEditor.snap my)).
Proof.
  destruct (snap_bounds mx) as [[kx Hx] _]. destruct (snap_bounds my) as [[ky Hy] _].
  exists kx, ky. cbn [x y xy]. split; assumption.
Qed.


Lemma handle_invariant (initial : nat) (s : CanvasEditor.State)
      (e : bool * CanvasEditor.Event) :
  editorInvariant initial s ->
  exists s',
    CanvasEditor.handle s e = Some s' /\
    editorInvariant initial s' /\
    (fst e = true -> CanvasEditor.points s' = CanvasEditor.points s).
Proof.
  intros (Hgrid & Hlen & Hdrag).
  destruct e as [isSimulating [mx my | mx my | |]]; cbn [CanvasEditor.handle fst].
  - eexists. split; [reflexivity |].
    unfold CanvasEditor.handleMouseDown.
    destruct isSimulating; [split; [repeat split; assumption | reflexivity] |].
    split; [| discriminate].
    destruct (CanvasEditor.hitIndex (CanvasEditor.points s) mx my) as [hit |] eqn:Hhit;
      unfold editorInvariant;
      cbn [CanvasEditor.points CanvasEditor.draggingPoint].
    + split; [exact Hgrid |]. split; [exact Hlen |].
      intros i [= <-]. apply findIndexFrom_range in Hhit. lia.
    + split; [apply Forall_app; split;
              [exact Hgrid | constructor; [apply snapped_onGrid | constructor]] |].
      rewrite length_app. cbn [List.length].
      split; [lia |]. intros i Hi. specialize (Hdrag i Hi). lia.
  - unfold CanvasEditor.handleMouseMove.
    destruct (CanvasEditor.draggingPoint s) as [i |] eqn:Hi.
    + destruct isSimulating.
      * eexists. split; [reflexivity |].
        split; [| reflexivity]. unfold editorInvariant.
        cbn [CanvasEditor.points CanvasEditor.draggingPoint].
        repeat split; assumption.
      * destruct (assign_inside (CanvasEditor.points s) i
                    (xy (CanvasEditor.snap mx) (CanvasEditor.snap my))
                    (Hdrag i eq_refl)) as (newPoints & Hassign & Hsame & Hfrom).
        rewrite Hassign. eexists. split; [reflexivity |].
        split; [| discriminate]. unfold editorInvariant.
        cbn [CanvasEditor.points CanvasEditor.draggingPoint].
        split; [| split].
        -- apply Forall_forall. intros q Hq.
           destruct (Hfrom q Hq) as [-> | Hold]; [apply snapped_onGrid |].
           rewrite Forall_forall in Hgrid. apply Hgrid. exact Hold.
        -- lia.
        -- intros j [= <-]. rewrite Hsame. apply Hdrag. reflexivity.
    + eexists. split; [destruct isSimulating; reflexivity |].
      split; [| reflexivity]. unfold editorInvariant.
      cbn [CanvasEditor.points CanvasEditor.draggingPoint].
      repeat split; try assumption; discriminate.
  - eexists. split; [reflexivity |]. split; [| reflexivity].
    unfold editorInvariant. cbn [CanvasEditor.points CanvasEditor.draggingPoint].
    repeat split; try assumption; discriminate.
  - eexists. split; [reflexivity |]. split; [| reflexivity].
    unfold editorInvariant. cbn [CanvasEditor.points CanvasEditor.draggingPoint].
    repeat split; try assumption; discriminate.
Qed.

Lemma run_invariant (initial : nat) (events : list (bool * CanvasEditor.Event)) :
  forall s,
    editorInvariant initial s ->
    exists s',
      CanvasEditor.run s events = Some s' /\
      editorInvariant initial s' /\
      (Forall (fun e => fst e = true) events ->
       CanvasEditor.points s' = CanvasEditor.points s).
Proof.
  induction events as [| e events IH]; intros s Hinv; cbn [CanvasEditor.run].
  - exists s. split; [reflexivity |]. split; [exact Hinv | reflexivity].
  - destruct (handle_invariant initial s e Hinv) as (s1 & Hs1 & Hinv1 & Hsim1).
    rewrite Hs1. destruct (IH s1 Hinv1) as (s' & Hrun & Hinv' & Hsim').
    exists s'. split; [exact Hrun |]. split; [exact Hinv' |].
    intros Hall. inversion Hall as [| ? ? He Hrest]; subst.
    rewrite (Hsim' Hrest). apply Hsim1. exact He.
Qed.

(** X29: whatever the mouse does on a canvas whose points are on the grid:
    no drag ever writes outside the point array, every point stays on
    the grid, no point is ever removed, the dragged index stays
    inside the array, and while the simulation runs the points do not
    change at all. *)
Theorem canvas_editor_safe (initial : list Point)
        (events : list (bool * CanvasEditor.Event)) :
  Forall onGrid initial ->
  exists s,
    CanvasEditor.run (CanvasEditor.mkState initial None None) events = Some s /\
    Forall onGrid (CanvasEditor.points s) /\
    (List.length initial <= List.length (CanvasEditor.points s))%nat /\
    (forall i, CanvasEditor.draggingPoint s = Some i ->
               (i < List.length (CanvasEditor.points s))%nat) /\
    (Forall (fun e => fst e = true) events -> CanvasEditor.points s = initial).
Proof.
  intros Hgrid.
  destruct (run_invariant (List.length initial) events
              (CanvasEditor.mkState initial None None))
    as (s & Hrun & (Hg & Hl & Hd) & Hsim).
  - unfold editorInvariant. cbn [CanvasEditor.points CanvasEditor.draggingPoint].
    split; [exact Hgrid |]. split; [lia | discriminate].
  - exists s. repeat split; assumption.
Qed.

Lemma canvas_editor_safe_witness :
  exists s,
    CanvasEditor.run (CanvasEditor.mkState [xy 24 48; xy 240 48] None None)
                     [(false, CanvasEditor.MouseDown 30 50);
                      (false, CanvasEditor.MouseMove 100 100);
                      (false, CanvasEditor.MouseUp)] = Some s /\
    Forall onGrid (CanvasEditor.points s) /\
    (List.length [xy 24 48; xy 240 48] <= List.length (CanvasEditor.points s))%nat /\
    (forall i, CanvasEditor.draggingPoint s = Some i ->
               (i < List.length (CanvasEditor.points s))%nat) /\
    (Forall (fun e => fst e = true)
            [(false, CanvasEditor.MouseDown 30 50);
             (false, CanvasEditor.MouseMove 100 100);
             (false, CanvasEditor.MouseUp)] ->
     CanvasEditor.points s = [xy 24 48; xy 240 48]).
Proof.
  apply (canvas_editor_safe [xy 24 48; xy 240 48]).
  repeat constructor.
  - exists 1%Z, 2%Z. unfold CanvasEditor.SNAP_GRID. cbn [x y xy]. split; lra.
  - exists 10%Z, 2%Z. unfold CanvasEditor.SNAP_GRID. cbn [x y xy]. split; lra.
Defined.

(** ** The map editor *)

Lemma checkCircuitComplete_same_ends (pts : list LatLng) (first : LatLng) :
  (3 <= List.length pts)%nat ->
  nth 0 pts (mkLatLng 0 0) = first ->
  nth (List.length pts - 1) pts (mkLatLng 0 0) = first ->
  App.checkCircuitComplete (Geodetic pts) = true.
Proof.
  intros Hlen H0 Hlast. unfold App.checkCircuitComplete.
  replace (List.length pts <? 3)%nat with false by (symmetry; apply Nat.ltb_ge; exact Hlen).
  rewrite H0, Hlast, getDistanceMeters_same_lat_lon.
  destruct (Rlt_dec 0 40); [reflexivity | lra].
Qed.

(** X30: with a drawing tool, a click on the first control point of a path
    of at least 3 points appends a copy of that point: its position,
    not the position of the click, with the type of the active tool;
    the circuit it leaves is complete by [checkCircuitComplete], and
    the points drawn before are kept as they were. *)
Theorem closing_click_completes (latLngToContainerPoint : LatLng -> Point)
        (activeTool : string) (points : list MapEditor.GeoPoint) (click : LatLng) :
  activeTool <> "select"%string ->
  (3 <= List.length points)%nat ->
  MapEditor.hitIndex latLngToContainerPoint points click = Some 0%nat ->
  let newPoints :=
    fst (MapEditor.mousedown latLngToContainerPoint false activeTool points click) in
  let type := if String.eqb activeTool "straight" then "straight"%string
              else "corner"%string in
  (exists startPoint rest,
     points = startPoint :: rest /\
     newPoints
     = points ++ [MapEditor.mkGeoPoint (MapEditor.position startPoint) (Some type)]) /\
  firstn (List.length points) newPoints = points /\
  List.length newPoints = S (List.length points) /\
  App.checkCircuitComplete (MapEditor.circuitOf newPoints) = true.
Proof.
  intros Htool Hlen Hhit. cbn zeta. unfold MapEditor.mousedown.
  replace (String.eqb activeTool "select") with false
    by (symmetry; apply String.eqb_neq; exact Htool).
  rewrite Hhit.
  replace (3 <=? List.length points)%nat with true
    by (symmetry; apply Nat.leb_le; exact Hlen).
  cbn [fst].
  split.
  { destruct points as [| startPoint rest]; [cbn in Hlen; lia |].
    exists startPoint, rest. split; reflexivity. }
  split; [rewrite firstn_app, firstn_all, Nat.sub_diag; cbn [firstn]; apply app_nil_r |].
  split; [rewrite length_app; cbn [List.length]; lia |].
  unfold MapEditor.circuitOf. rewrite map_app. cbn [map MapEditor.position].
  set (start := MapEditor.position (nth 0 points _)).
  apply (checkCircuitComplete_same_ends _ start).
  - rewrite length_app, length_map. cbn [List.length]. lia.
  - rewrite app_nth1 by (rewrite length_map; lia).
    subst start. destruct points as [| p rest]; [cbn in Hlen; lia | reflexivity].
  - rewrite length_app, length_map. cbn [List.length].
    rewrite app_nth2 by (rewrite length_map; lia).
    rewrite length_map.
    replace (List.length points + 1 - 1 - List.length points)%nat with 0%nat by lia.
    reflexivity.
Qed.

Lemma closing_click_completes_witness :
  let project := fun p : LatLng => xy (lng p) (lat p) in
  let points := [MapEditor.mkGeoPoint (mkLatLng 43 7) None;
                 MapEditor.mkGeoPoint (mkLatLng 43 100) None;
                 MapEditor.mkGeoPoint (mkLatLng 143 100) None] in
  let newPoints :=
    fst (MapEditor.mousedown project false "freehand" points (mkLatLng 43 6)) in
  newPoints = points ++ [MapEditor.mkGeoPoint (mkLatLng 43 7) (Some "corner"%string)] /\
  App.checkCircuitComplete (MapEditor.circuitOf newPoints) = true.
Proof.
  destruct (closing_click_completes (fun p : LatLng => xy (lng p) (lat p)) "freehand"
           [MapEditor.mkGeoPoint (mkLatLng 43 7) None;
            MapEditor.mkGeoPoint (mkLatLng 43 100) None;
            MapEditor.mkGeoPoint (mkLatLng 143 100) None] (mkLatLng 43 6))
    as ((startPoint & rest & Hpoints & Hnew) & _ & _ & Hcomplete).
  - discriminate.
  - simpl. lia.
  - unfold MapEditor.hitIndex.
    cbn [map MapEditor.position CanvasEditor.findIndexFrom x y xy lat lng].
    replace (7 - 6) with 1 by ring. replace (43 - 43) with 0 by ring.
    rewrite hypot_0_r by lra.
    destruct (Rlt_dec 1 15); [reflexivity | lra].
  - injection Hpoints as <- _. split; [exact Hnew | exact Hcomplete].
Defined.

(** ** A sample at the curvature cap *)

Lemma catmullRom_start_tangent (p0 p1 p2 p3 : Point) (segments : nat) :
  s_dx (Spline.catmullRom p0 p1 p2 p3 segments 0) = 0.5 * (x p2 - x p0 - x p3) /\
  s_dy (Spline.catmullRom p0 p1 p2 p3 segments 0) = 0.5 * (y p2 - y p0 - y p3).
Proof.
  unfold Spline.catmullRom. cbv zeta. cbn [s_dx s_dy INR].
  unfold Rdiv. rewrite !Rmult_0_l. split; lra.
Qed.

Lemma atan2_up (b : real) : 0 < b -> Math.atan2 b 0 = PI / 2.
Proof.
  intros Hb. unfold Math.atan2.
  destruct (Rlt_dec 0 0) as [H | _]; [lra |].
  destruct (Rlt_dec 0 b) as [_ | H]; [reflexivity | contradiction].
Qed.

(** The second sample of the open path (0,0), (2,0), (0,0), (0,-2) at
    subdivision count 1 follows a quarter turn of the tangent: its
    curvature is capped and its speed is [1.0 - 0.8], below 0.2. *)
Example capped_sample_below_0_2 :
  let out := SplineEditor.getSplinePoints [xy 0 0; xy 2 0; xy 0 0; xy 0 (-2)] 1 false in
  exists p, nth_error out 1 = Some p /\ speed p = Some minSpeed /\ ~ speedInRange p.
Proof.
  set (c0 := Spline.catmullRom (xy 0 0) (xy 0 0) (xy 2 0) (xy 0 0) 1 0).
  set (c1 := Spline.catmullRom (xy 0 0) (xy 2 0) (xy 0 0) (xy 0 (-2)) 1 0).
  set (c2 := Spline.catmullRom (xy 2 0) (xy 0 0) (xy 0 (-2)) (xy 0 (-2)) 1 0).
  assert (Hs : SplineEditor.sampled
                 (SplineEditor.padded [xy 0 0; xy 2 0; xy 0 0; xy 0 (-2)] false) 1
               = [c0; c1; c2]) by reflexivity.
  assert (Hcap : Spline.speedOf [c0; c1; c2] 1 = minSpeed).
  { apply speedOf_capped. unfold Spline.curvature, sampleAt.
    cbn [List.length Nat.ltb Nat.leb Nat.sub andb nth].
    destruct (catmullRom_start_tangent (xy 0 0) (xy 0 0) (xy 2 0) (xy 0 0) 1)
      as [Hx0 Hy0].
    destruct (catmullRom_start_tangent (xy 0 0) (xy 2 0) (xy 0 0) (xy 0 (-2)) 1)
      as [Hx1 Hy1].
    fold c0 in Hx0, Hy0. fold c1 in Hx1, Hy1. cbn [x y xy] in Hx0, Hy0, Hx1, Hy1.
    cbv zeta. rewrite Hx0, Hy0, Hx1, Hy1.
    replace (0.5 * (0 - 0 - 0)) with 0 by lra.
    replace (0.5 * (2 - 0 - 0)) with 1 by lra.
    replace (0.5 * (0 - 0 - -2)) with 1 by lra.
    rewrite atan2_0_1, (atan2_up 1) by lra.
    pose proof PI2_3_2 as Hpi. unfold Math.abs, Math.PI, double_0_8.
    rewrite Rabs_left by lra.
    destruct (Rgt_dec (- (0 - PI / 2)) PI) as [H | _]; lra. }
  exists (ofSample (setSpeed c1 minSpeed)). split; [| split].
  - cbv zeta. unfold SplineEditor.getSplinePoints.
    change (List.length [xy 0 0; xy 2 0; xy 0 0; xy 0 (-2)] <? 2)%nat with false.
    cbn [negb]. rewrite Hs.
    rewrite nth_error_app1
      by (rewrite length_map, withSpeeds_length; simpl; lia).
    rewrite (output_nth [c0; c1; c2] 1 c1 eq_refl), Hcap. reflexivity.
  - reflexivity.
  - intros (v & Hv & Hr). cbn [speed ofSample setSpeed s_speed] in Hv.
    injection Hv as <-. pose proof minSpeed_value as [_ Hlt]. lra.
Qed.
